(** * Document comparison scripts of hivellm/transmutation

    The comparison scripts ([test_precision.py], [compare_modes.py],
    [compare_detailed.py], [detailed_diff.py], [analyze_diff.py]) read two
    markdown files and measure how close they are with Python's [difflib]:
    [SequenceMatcher(None, x, y).ratio()] over the characters of the two
    texts, [unified_diff] over windows of their lines, a handful of counters
    over the diff lines, and ratios per section; [test_authors.py] compares
    the author lines of the two files one by one.

    The development embeds the part of [difflib] the scripts call
    ([SequenceMatcher], [unified_diff]) and the computations of the scripts,
    as functions of the contents of the files that are read.  Python
    operations that can raise (indexing a list) or loop ([while]) are written
    in a small error monad, so that "the call returns" is a statement to
    prove and not a by-product of the encoding. *)

From Stdlib Require Import QArith Ascii String DecimalString.
From stdpp Require Import gmap strings list sorting.

Local Open Scope nat_scope.

(** ** Python prelude: exceptions, indexing, loops *)

Module Py.

Inductive exn : Set :=
| IndexError      (* a list or string indexed out of range *)
| NoProgress.     (* a [while] loop that used up its iteration budget *)

Inductive result (T : Type) : Type :=
| Ok (x : T)
| Raise (e : exn).
Arguments Ok {T} x.
Arguments Raise {T} e.

#[export] Instance result_ret : MRet result := @Ok.
#[export] Instance result_bind : MBind result := λ T U f m,
  match m with
  | Ok x => f x
  | Raise e => Raise e
  end.
#[export] Instance result_fmap : FMap result := λ T U f m,
  match m with
  | Ok x => Ok (f x)
  | Raise e => Raise e
  end.

Definition returns {T} (m : result T) : Prop := ∃ x, m = Ok x.

(** [l[i]] for [0 <= i]. *)
Definition getitem {T} (l : list T) (i : nat) : result T :=
  match l !! i with
  | Some x => Ok x
  | None => Raise IndexError
  end.

(** [l[-1]] *)
Definition getlast {T} (l : list T) : result T :=
  match last l with
  | Some x => Ok x
  | None => Raise IndexError
  end.

(** [l.pop()]: the last element and the list without it. *)
Definition pop {T} (l : list T) : result (T * list T) :=
  match reverse l with
  | x :: r => Ok (x, reverse r)
  | [] => Raise IndexError
  end.

(** [l.append(x)] *)
Definition append {T} (l : list T) (x : T) : list T := l ++ [x].

(** [l[i:j]] for [0 <= i], [0 <= j]. *)
Definition slice {T} (l : list T) (i j : nat) : list T :=
  drop i (take j l).

(** [range(lo, hi)] *)
Definition range (lo hi : nat) : list nat := seq lo (hi - lo).

(** [enumerate(l)] *)
Definition enumerate {T} (l : list T) : list (nat * T) := imap pair l.

(** [while cond: body], with a bound on the number of iterations: running
    out of it is the error [NoProgress]. *)
Fixpoint while {S} (fuel : nat) (cond : S → result bool)
    (body : S → result S) (s : S) : result S :=
  c ← cond s;
  if c : bool then
    match fuel with
    | 0 => Raise NoProgress
    | S fuel' => s' ← body s; while fuel' cond body s'
    end
  else Ok s.

(** [for x in l: body] over a state. *)
Fixpoint for_ {T S} (l : list T) (body : T → S → result S) (s : S) : result S :=
  match l with
  | [] => Ok s
  | x :: l' => s' ← body x s; for_ l' body s'
  end.

End Py.
Import Py.

(** ** difflib.SequenceMatcher *)

Module Difflib.

(** [Match(a, b, size)] *)
Definition Match : Type := nat * nat * nat.

Inductive Tag : Set := replace | delete | insert | equal.

#[export] Instance Tag_eq_dec : EqDecision Tag.
Proof. solve_decision. Defined.

(** [(tag, i1, i2, j1, j2)] *)
Definition Opcode : Type := Tag * nat * nat * nat * nat.

(** [(alo, ahi, blo, bhi)]: the two index ranges that
    [get_matching_blocks] still has to look at. *)
Definition box : Type := nat * nat * nat * nat.

(** Tuples are compared lexicographically by [list.sort]. *)
Definition Match_le (x y : Match) : Prop :=
  let '(i1, j1, k1) := x in
  let '(i2, j2, k2) := y in
  i1 < i2 ∨ (i1 = i2 ∧ (j1 < j2 ∨ (j1 = j2 ∧ k1 ≤ k2))).

#[export] Instance Match_le_dec : RelDecision Match_le.
Proof. intros [[??]?] [[??]?]; unfold Match_le; apply _. Defined.

(** [_calculate_ratio(matches, length)]; the float is kept as the exact
    quotient. *)
Definition _calculate_ratio (matches length : nat) : Q :=
  if bool_decide (length ≠ 0)
  then (2 * Z.of_nat matches # Pos.of_nat length)%Q
  else 1%Q.

Section SequenceMatcher.
Context {A : Type} `{Countable A}.

Record SequenceMatcher : Type := mkSequenceMatcher {
  isjunk : option (A → bool);
  a : list A;
  b : list A;
  autojunk : bool;
  b2j : gmap A (list nat);
  bjunk : gset A;
  bpopular : gset A;
  matching_blocks : option (list Match);
  opcodes : option (list Opcode);
}.

(** *** [__chain_b] *)

(** [for i, elt in enumerate(b): b2j.setdefault(elt, []).append(i)] *)
Definition index_b (b : list A) : gmap A (list nat) :=
  foldl (λ b2j '(i, elt), <[elt := append (default [] (b2j !! elt)) i]> b2j)
        ∅ (enumerate b).

(** The keys of [b2j] that [isjunk] holds of; none when [isjunk] is [None]. *)
Definition junk_of (isjunk : option (A → bool)) (b2j : gmap A (list nat)) : gset A :=
  match isjunk with
  | Some f => dom (filter (λ kv, f kv.1 = true) b2j)
  | None => ∅
  end.

(** [for elt in s: del b2j[elt]] *)
Definition purge (s : gset A) (b2j : gmap A (list nat)) : gmap A (list nat) :=
  filter (λ kv, kv.1 ∉ s) b2j.

(** The popular elements: only looked for when [autojunk] is on and [b] has
    at least 200 elements. *)
Definition popular_of (autojunk : bool) (n : nat) (b2j : gmap A (list nat)) : gset A :=
  if autojunk && bool_decide (200 ≤ n) then
    let ntest := n `div` 100 + 1 in
    dom (filter (λ kv, ntest < length kv.2) b2j)
  else ∅.

Definition chain_b (isjunk : option (A → bool)) (autojunk : bool) (b : list A)
  : gmap A (list nat) * gset A * gset A :=
  let b2j := index_b b in
  let junk := junk_of isjunk b2j in
  let b2j := purge junk b2j in
  let popular := popular_of autojunk (length b) b2j in
  let b2j := purge popular b2j in
  (b2j, junk, popular).

(** [SequenceMatcher(isjunk, a, b, autojunk)] *)
Definition new (isjunk : option (A → bool)) (a b : list A) (autojunk : bool)
  : SequenceMatcher :=
  let '(b2j, junk, popular) := chain_b isjunk autojunk b in
  {| isjunk := isjunk; a := a; b := b; autojunk := autojunk;
     b2j := b2j; bjunk := junk; bpopular := popular;
     matching_blocks := None; opcodes := None |}.

(** *** [find_longest_match] *)

(** [j2len.get(j-1, 0)]: the keys of [j2len] are indices of [b], so the key
    [-1] asked for at [j = 0] is never there. *)
Definition j2lenget (j2len : gmap nat nat) (j : nat) : nat :=
  match j with
  | 0 => 0
  | S j' => default 0 (j2len !! j')
  end.

(** The body of [for j in b2j.get(a[i], nothing)], with its [continue] and
    [break].  [i-k+1] and [j-k+1] are computed as [i+1-k] and [j+1-k]: the
    subtraction of naturals stops at 0. *)
Fixpoint scan_row (blo bhi : nat) (j2len : gmap nat nat) (i : nat)
    (js : list nat) (newj2len : gmap nat nat) (best : Match)
  : gmap nat nat * Match :=
  match js with
  | [] => (newj2len, best)
  | j :: js' =>
      if bool_decide (j < blo) then scan_row blo bhi j2len i js' newj2len best
      else if bool_decide (bhi ≤ j) then (newj2len, best)
      else
        let k := j2lenget j2len j + 1 in
        let newj2len := <[j := k]> newj2len in
        let best := if bool_decide (best.2 < k) then (i + 1 - k, j + 1 - k, k) else best in
        scan_row blo bhi j2len i js' newj2len best
  end.

(** The conditions of the four [while] loops that extend the best match,
    evaluated left to right as [and] does.  [junk] tells which kind of
    element the loop takes: [not isbjunk(..)] for [false], [isbjunk(..)]
    for [true]. *)
Definition grows_left (a b : list A) (bjunk : gset A) (junk : bool)
    (alo blo : nat) (m : Match) : result bool :=
  let '(besti, bestj, bestsize) := m in
  if negb (bool_decide (alo < besti)) then Ok false else
  if negb (bool_decide (blo < bestj)) then Ok false else
  y ← getitem b (bestj - 1);
  if negb (bool_decide (bool_decide (y ∈ bjunk) = junk)) then Ok false else
  x ← getitem a (besti - 1);
  Ok (bool_decide (x = y)).

Definition grows_right (a b : list A) (bjunk : gset A) (junk : bool)
    (ahi bhi : nat) (m : Match) : result bool :=
  let '(besti, bestj, bestsize) := m in
  if negb (bool_decide (besti + bestsize < ahi)) then Ok false else
  if negb (bool_decide (bestj + bestsize < bhi)) then Ok false else
  y ← getitem b (bestj + bestsize);
  if negb (bool_decide (bool_decide (y ∈ bjunk) = junk)) then Ok false else
  x ← getitem a (besti + bestsize);
  Ok (bool_decide (x = y)).

Definition step_left (m : Match) : result Match :=
  let '(besti, bestj, bestsize) := m in Ok (besti - 1, bestj - 1, bestsize + 1).

Definition step_right (m : Match) : result Match :=
  let '(besti, bestj, bestsize) := m in Ok (besti, bestj, bestsize + 1).

Definition find_longest_match (self : SequenceMatcher) (alo ahi blo bhi : nat)
  : result Match :=
  let a := a self in
  let b := b self in
  let b2j := b2j self in
  let bjunk := bjunk self in
  let best := (alo, blo, 0) in
  '(j2len, best) ← for_ (range alo ahi) (λ i '(j2len, best),
      ai ← getitem a i;
      Ok (scan_row blo bhi j2len i (default [] (b2j !! ai)) ∅ best))
    (∅, best);
  best ← while ahi (grows_left a b bjunk false alo blo) step_left best;
  best ← while ahi (grows_right a b bjunk false ahi bhi) step_right best;
  best ← while ahi (grows_left a b bjunk true alo blo) step_left best;
  best ← while ahi (grows_right a b bjunk true ahi bhi) step_right best;
  Ok best.

(** *** [get_matching_blocks] *)

(** One turn of [while queue:]. *)
Definition split_block (self : SequenceMatcher)
    (s : list box * list Match) : result (list box * list Match) :=
  let '(queue, matching_blocks) := s in
  '(alo, ahi, blo, bhi, queue) ← pop queue;
  '(i, j, k) ← find_longest_match self alo ahi blo bhi;
  if bool_decide (k ≠ 0) then
    let matching_blocks := append matching_blocks (i, j, k) in
    let queue :=
      if bool_decide (alo < i) && bool_decide (blo < j)
      then append queue (alo, i, blo, j) else queue in
    let queue :=
      if bool_decide (i + k < ahi) && bool_decide (j + k < bhi)
      then append queue (i + k, ahi, j + k, bhi) else queue in
    Ok (queue, matching_blocks)
  else Ok (queue, matching_blocks).

(** The loop that collapses adjacent blocks; the state is
    [(i1, j1, k1, non_adjacent)]. *)
Definition collapse (s : Match * list Match) (x : Match) : Match * list Match :=
  let '((i1, j1, k1), non_adjacent) := s in
  let '(i2, j2, k2) := x in
  if bool_decide (i1 + k1 = i2) && bool_decide (j1 + k1 = j2) then
    ((i1, j1, k1 + k2), non_adjacent)
  else
    let non_adjacent :=
      if bool_decide (k1 ≠ 0) then append non_adjacent (i1, j1, k1)
      else non_adjacent in
    ((i2, j2, k2), non_adjacent).

(** The blocks as computed when nothing is cached. *)
Definition compute_matching_blocks (self : SequenceMatcher) : result (list Match) :=
  let la := length (a self) in
  let lb := length (b self) in
  '(_, matching_blocks) ←
    while (2 * la + 1) (λ s, Ok (bool_decide (s.1 ≠ []))) (split_block self)
          ([(0, la, 0, lb) : box], []);
  let matching_blocks := merge_sort Match_le matching_blocks in
  let '((i1, j1, k1), non_adjacent) :=
    foldl collapse ((0, 0, 0), []) matching_blocks in
  let non_adjacent :=
    if bool_decide (k1 ≠ 0) then append non_adjacent (i1, j1, k1)
    else non_adjacent in
  Ok (append non_adjacent (la, lb, 0)).

Definition get_matching_blocks (self : SequenceMatcher)
  : result (list Match * SequenceMatcher) :=
  match matching_blocks self with
  | Some blocks => Ok (blocks, self)
  | None =>
      blocks ← compute_matching_blocks self;
      Ok (blocks,
          {| isjunk := isjunk self; a := a self; b := b self;
             autojunk := autojunk self; b2j := b2j self; bjunk := bjunk self;
             bpopular := bpopular self;
             matching_blocks := Some blocks; opcodes := opcodes self |})
  end.

(** *** [get_opcodes] *)

(** The body of [for ai, bj, size in self.get_matching_blocks()]; the state
    is [(i, j, answer)]. *)
Definition emit (s : nat * nat * list Opcode) (x : Match)
  : nat * nat * list Opcode :=
  let '(i, j, answer) := s in
  let '(ai, bj, size) := x in
  let tag :=
    if bool_decide (i < ai) && bool_decide (j < bj) then Some replace
    else if bool_decide (i < ai) then Some delete
    else if bool_decide (j < bj) then Some insert
    else None in
  let answer :=
    match tag with
    | Some tag => append answer (tag, i, ai, j, bj)
    | None => answer
    end in
  let '(i, j) := (ai + size, bj + size) in
  let answer :=
    if bool_decide (size ≠ 0) then append answer (equal, ai, i, bj, j)
    else answer in
  (i, j, answer).

Definition opcodes_of (blocks : list Match) : list Opcode :=
  (foldl emit (0, 0, []) blocks).2.

Definition get_opcodes (self : SequenceMatcher)
  : result (list Opcode * SequenceMatcher) :=
  match opcodes self with
  | Some answer => Ok (answer, self)
  | None =>
      '(blocks, self) ← get_matching_blocks self;
      let answer := opcodes_of blocks in
      Ok (answer,
          {| isjunk := isjunk self; a := a self; b := b self;
             autojunk := autojunk self; b2j := b2j self; bjunk := bjunk self;
             bpopular := bpopular self;
             matching_blocks := matching_blocks self; opcodes := Some answer |})
  end.

(** *** [ratio] *)

Definition ratio (self : SequenceMatcher) : result (Q * SequenceMatcher) :=
  '(blocks, self) ← get_matching_blocks self;
  let matches := sum_list (map (λ triple : Match, triple.2) blocks) in
  Ok (_calculate_ratio matches (length (a self) + length (b self)), self).

End SequenceMatcher.
Arguments SequenceMatcher A {_ _}.

End Difflib.

(** ** Python strings *)

Module Str.

(** A [str] is the list of its characters; a character is kept as its code
    point below 256. *)
Definition str : Type := list ascii.

Definition lit (s : string) : str := list_ascii_of_string s.

(** The line feed, ["\n"] in Python. *)
Definition nl : ascii := "010"%char.

(** [c.isspace()] *)
Definition isspace (c : ascii) : bool :=
  let n := nat_of_ascii c in
  bool_decide (9 ≤ n ≤ 13) || bool_decide (28 ≤ n ≤ 32)
  || bool_decide (n = 133) || bool_decide (n = 160).

Fixpoint lstrip (s : str) : str :=
  match s with
  | c :: s' => if isspace c then lstrip s' else s
  | [] => []
  end.

(** [s.strip()] *)
Definition strip (s : str) : str := reverse (lstrip (reverse (lstrip s))).

(** [s.startswith(p)] *)
Definition startswith (s p : str) : bool := bool_decide (p `prefix_of` s).

(** [p in s] *)
Fixpoint contains (p s : str) : bool :=
  startswith s p ||
  match s with
  | _ :: s' => contains p s'
  | [] => false
  end.

(** [s.split(sep)] for a [sep] that is not empty, which is also
    [re.split(sep, s)] when [sep] has no special character: the occurrences
    of [sep] are taken from the left and do not overlap.  [skip] counts the
    characters of an occurrence still to be passed. *)
Fixpoint split_from (sep : str) (skip : nat) (s : str) : list str :=
  match s with
  | [] => [[]]
  | c :: s' =>
      match skip with
      | S skip' => split_from sep skip' s'
      | 0 =>
          if startswith s sep then [] :: split_from sep (length sep - 1) s'
          else
            match split_from sep 0 s' with
            | piece :: pieces => (c :: piece) :: pieces
            | [] => [[c]]
            end
      end
  end.

Definition split (s sep : str) : list str := split_from sep 0 s.

(** [f.readlines()] of a file whose text is [s]: the lines keep their
    ["\n"]. *)
Fixpoint readlines (s : str) : list str :=
  match s with
  | [] => []
  | c :: s' =>
      if bool_decide (c = nl) then [c] :: readlines s'
      else
        match readlines s' with
        | line :: lines => (c :: line) :: lines
        | [] => [[c]]
        end
  end.

(** ['{}'.format(n)] *)
Definition format_int (n : nat) : str :=
  lit (NilEmpty.string_of_uint (Nat.to_uint n)).

(** [s.rstrip()] *)
Definition rstrip (s : str) : str := reverse (lstrip (reverse s)).

(** [sep.join(pieces)] *)
Fixpoint join (sep : str) (pieces : list str) : str :=
  match pieces with
  | [] => []
  | piece :: pieces' =>
      match pieces' with
      | [] => piece
      | _ :: _ => piece ++ sep ++ join sep pieces'
      end
  end.

End Str.
Import Str.

(** ** difflib.unified_diff *)

Module Unified.
Import Difflib.

Section Grouped.
Context {A : Type} `{Countable A}.

(** The body of the loop of [get_grouped_opcodes]; the state is the group
    being filled and the groups yielded so far. *)
Definition regroup (n : nat) (s : list Opcode * list (list Opcode)) (code : Opcode)
  : list Opcode * list (list Opcode) :=
  let '(group, yielded) := s in
  let '(tag, i1, i2, j1, j2) := code in
  let nn := n + n in
  if bool_decide (tag = equal) && bool_decide (nn < i2 - i1) then
    let group := append group (tag, i1, i2 `min` (i1 + n), j1, j2 `min` (j1 + n)) in
    let yielded := append yielded group in
    let group := [] in
    let '(i1, j1) := (i1 `max` (i2 - n), j1 `max` (j2 - n)) in
    (append group (tag, i1, i2, j1, j2), yielded)
  else (append group (tag, i1, i2, j1, j2), yielded).

(** [get_grouped_opcodes(n)], all its groups.  [codes] is the list that
    [get_opcodes] returned and cached: writing [codes[0]] and [codes[-1]]
    writes the cache, unless [codes] was replaced by the one-element list. *)
Definition get_grouped_opcodes (self : SequenceMatcher A) (n : nat)
  : result (list (list Opcode) * SequenceMatcher A) :=
  '(codes, self) ← get_opcodes self;
  let fresh := bool_decide (codes = []) in
  let codes := if fresh then [(equal, 0, 1, 0, 1)] else codes in
  '(tag, i1, i2, j1, j2) ← getitem codes 0;
  let codes :=
    if bool_decide (tag = equal)
    then <[0 := (tag, i1 `max` (i2 - n), i2, j1 `max` (j2 - n), j2)]> codes
    else codes in
  '(tag, i1, i2, j1, j2) ← getlast codes;
  let codes :=
    if bool_decide (tag = equal)
    then <[length codes - 1 := (tag, i1, i2 `min` (i1 + n), j1, j2 `min` (j1 + n))]> codes
    else codes in
  let '(group, yielded) := foldl (regroup n) ([], []) codes in
  last_tag ← (if bool_decide (length group = 1)
              then code ← getitem group 0; Ok (Some code.1.1.1.1)
              else Ok None);
  let yielded :=
    if bool_decide (group ≠ []) && negb (bool_decide (last_tag = Some equal))
    then append yielded group else yielded in
  Ok (yielded,
      {| isjunk := isjunk self; a := a self; b := b self;
         autojunk := autojunk self; b2j := b2j self; bjunk := bjunk self;
         bpopular := bpopular self;
         matching_blocks := matching_blocks self;
         opcodes := if fresh then opcodes self else Some codes |}).

End Grouped.

(** [_format_range_unified(start, stop)] *)
Definition _format_range_unified (start stop : nat) : str :=
  let beginning := start + 1 in
  let length := stop - start in
  if bool_decide (length = 1) then format_int beginning
  else
    let beginning := if bool_decide (length = 0) then beginning - 1 else beginning in
    format_int beginning ++ lit "," ++ format_int length.

(** The lines yielded for one opcode of a group. *)
Definition dump (a b : list str) (code : Opcode) : list str :=
  let '(tag, i1, i2, j1, j2) := code in
  if bool_decide (tag = equal) then (λ line, lit " " ++ line) <$> slice a i1 i2
  else
    (if bool_decide (tag = replace ∨ tag = delete)
     then (λ line, lit "-" ++ line) <$> slice a i1 i2 else [])
    ++
    (if bool_decide (tag = replace ∨ tag = insert)
     then (λ line, lit "+" ++ line) <$> slice b j1 j2 else []).

(** The lines yielded for one group: the ["@@"] line, then the lines of its
    opcodes. *)
Definition hunk (a b : list str) (lineterm : str) (group : list Opcode)
  : result (list str) :=
  first ← getitem group 0;
  last ← getlast group;
  let file1_range := _format_range_unified first.1.1.1.2 last.1.1.2 in
  let file2_range := _format_range_unified first.1.2 last.2 in
  Ok ((lit "@@ -" ++ file1_range ++ lit " +" ++ file2_range ++ lit " @@" ++ lineterm)
      :: concat (dump a b <$> group)).

(** [list(unified_diff(a, b, fromfile, tofile, n=n, lineterm=lineterm))];
    the two file dates are left empty, as the scripts leave them. *)
Definition unified_diff (a b : list str) (fromfile tofile : str) (n : nat)
    (lineterm : str) : result (list str) :=
  '(groups, _) ← get_grouped_opcodes (new None a b true) n;
  '(_, lines) ← for_ groups (λ group '(started, lines),
      let lines :=
        if started : bool then lines
        else lines ++ [lit "--- " ++ fromfile ++ lineterm;
                       lit "+++ " ++ tofile ++ lineterm] in
      h ← hunk a b lineterm group;
      Ok (true, lines ++ h))
    (false, []);
  Ok lines.

End Unified.

(** ** The scripts *)

(** [SequenceMatcher(None, x, y).ratio() * 100], the figure every script
    prints. *)
Definition similarity {A : Type} `{Countable A} (x y : list A) : result Q :=
  '(r, _) ← Difflib.ratio (Difflib.new None x y true);
  Ok (r * 100)%Q.

(** [test_precision.py]: the two arguments are the texts of
    [output_precision_mode.md] and [output_docling.md]. *)
Module test_precision.

Definition sim (precision docling : str) : result Q := similarity precision docling.

End test_precision.

(** [compare_modes.py] *)
Module compare_modes.

Definition fast_sim (fast docling : str) : result Q := similarity fast docling.

Definition precision_sim (precision docling : str) : result Q :=
  similarity precision docling.

Definition improvement (fast precision docling : str) : result Q :=
  f ← fast_sim fast docling;
  p ← precision_sim precision docling;
  Ok (p - f)%Q.

End compare_modes.

(** [detailed_diff.py]: [docling] and [precision] are the texts of the two
    files, read with [readlines]. *)
Module detailed_diff.

Inductive kind : Set := missing | extra.

#[export] Instance kind_eq_dec : EqDecision kind.
Proof. solve_decision. Defined.

Definition issue : Type := kind * str.

Definition diff (docling_lines precision_lines : list str) : result (list str) :=
  Unified.unified_diff (slice docling_lines 0 100) (slice precision_lines 0 100)
    (lit "docling") (lit "precision") 3 (lit "").

(** The body of [for i, line in enumerate(diff[:200])]. *)
Definition record (issues : list issue) (line : str) : list issue :=
  if startswith line (lit "---") || startswith line (lit "+++")
     || startswith line (lit "@@") then issues
  else if startswith line (lit "-") then append issues (missing, strip (drop 1 line))
  else if startswith line (lit "+") then append issues (extra, strip (drop 1 line))
  else issues.

Definition issues_of (diff : list str) : list issue :=
  foldl record [] (slice diff 0 200).

Definition issues (docling_lines precision_lines : list str) : result (list issue) :=
  d ← diff docling_lines precision_lines;
  Ok (issues_of d).

(** [sum(1 for t, content in issues if p(t, content))] *)
Definition count (p : issue → bool) (issues : list issue) : nat :=
  sum_list ((λ _, 1) <$> List.filter p issues).

Definition is_missing_break (x : issue) : bool :=
  bool_decide (x.1 = missing) && bool_decide (x.2 = lit "").

Definition is_extra_break (x : issue) : bool :=
  bool_decide (x.1 = extra) && bool_decide (x.2 = lit "").

Definition is_missing_header (x : issue) : bool :=
  bool_decide (x.1 = missing) && startswith x.2 (lit "##").

(** [t == 'extra' and 'Abstract' in content or 'Introduction' in content]:
    [and] binds tighter than [or]. *)
Definition is_wrong_join (x : issue) : bool :=
  (bool_decide (x.1 = extra) && contains (lit "Abstract") x.2)
  || contains (lit "Introduction") x.2.

Definition missing_breaks : list issue → nat := count is_missing_break.
Definition extra_breaks : list issue → nat := count is_extra_break.
Definition missing_headers : list issue → nat := count is_missing_header.
Definition wrong_joins : list issue → nat := count is_wrong_join.

Fixpoint find_from (i : nat) (lines : list str) (start_pattern : str) : nat :=
  match lines with
  | line :: lines' =>
      if contains start_pattern line then i
      else find_from (S i) lines' start_pattern
  | [] => 0
  end.

Definition find_section (lines : list str) (start_pattern : str) : nat :=
  find_from 0 lines start_pattern.

(** The abstract of the two files, when the [if] lets the comparison run:
    a number is true when it is not 0. *)
Definition abstract_sections (docling_lines precision_lines : list str)
  : option (str * str) :=
  let abs_start_d := find_section docling_lines (lit "## Abstract") in
  let abs_start_p := find_section precision_lines (lit "## Abstract") in
  let intro_start_d := find_section docling_lines (lit "## 1 Introduction") in
  let intro_start_p := find_section precision_lines (lit "## 1 Introduction") in
  if bool_decide (abs_start_d ≠ 0) && bool_decide (abs_start_p ≠ 0)
     && bool_decide (intro_start_d ≠ 0) && bool_decide (intro_start_p ≠ 0)
  then Some (concat (slice docling_lines abs_start_d intro_start_d),
             concat (slice precision_lines abs_start_p intro_start_p))
  else None.

(** [abs_sim], or [None] when the comparison is not run. *)
Definition abs_sim (docling_lines precision_lines : list str) : result (option Q) :=
  match abstract_sections docling_lines precision_lines with
  | Some (abstract_d, abstract_p) => r ← similarity abstract_d abstract_p; Ok (Some r)
  | None => Ok None
  end.

Definition total_sim (docling_lines precision_lines : list str) : result Q :=
  similarity (concat docling_lines) (concat precision_lines).

(** What the script computes from the two texts. *)
Record report : Type := mkReport {
  r_issues : list issue;
  r_missing_breaks : nat;
  r_extra_breaks : nat;
  r_missing_headers : nat;
  r_wrong_joins : nat;
  r_abs_sim : option Q;
  r_total_sim : Q;
}.

Definition main (precision docling : str) : result report :=
  let precision_lines := readlines precision in
  let docling_lines := readlines docling in
  issues ← issues docling_lines precision_lines;
  abs ← abs_sim docling_lines precision_lines;
  total ← total_sim docling_lines precision_lines;
  Ok {| r_issues := issues;
        r_missing_breaks := missing_breaks issues;
        r_extra_breaks := extra_breaks issues;
        r_missing_headers := missing_headers issues;
        r_wrong_joins := wrong_joins issues;
        r_abs_sim := abs;
        r_total_sim := total |}.

End detailed_diff.

(** [compare_detailed.py]: [docling] and [precision] are the texts of the
    two files. *)
Module compare_detailed.

Definition sim (precision docling : str) : result Q := similarity precision docling.

Definition diff (docling precision : str) : result (list str) :=
  let docling_lines := split docling [nl] in
  let precision_lines := split precision [nl] in
  Unified.unified_diff (slice docling_lines 0 100) (slice precision_lines 0 100)
    (lit "") (lit "") 1 (lit "").

Definition heading : str := nl :: lit "## ".

(** [re.split(r'\n## ', text)] *)
Definition sections (text : str) : list str := split text heading.

(** One line of the section analysis: [(i, title, sec_sim)]. *)
Definition section_line : Type := nat * str * Q.

(** The body of the loop over the zipped sections; the state is the list of
    lines printed so far. *)
Definition analyse (x : nat * (str * str)) (printed : list section_line)
  : result (list section_line) :=
  let '(i, (d_sec, p_sec)) := x in
  if bool_decide (length d_sec < 10) then Ok printed
  else
    sec_sim ← similarity d_sec p_sec;
    first_line ← getitem (split d_sec [nl]) 0;
    let title := slice first_line 0 50 in
    Ok (append printed (i, title, sec_sim)).

Definition section_analysis (docling precision : str) : result (list section_line) :=
  let docling_sections := sections docling in
  let precision_sections := sections precision in
  for_ (enumerate (zip (slice docling_sections 0 5) (slice precision_sections 0 5)))
       analyse [].

(** Lines 21 to 26: the numbers of lines of the two texts and their
    difference. *)
Definition line_counts (docling precision : str) : nat * nat * Z :=
  let docling_lines := split docling [nl] in
  let precision_lines := split precision [nl] in
  (length docling_lines, length precision_lines,
   Z.abs (Z.of_nat (length docling_lines) - Z.of_nat (length precision_lines))).




End compare_detailed.

(** [test_authors.py]: [docling] and [precision] are the texts of the two
    files. *)
Module test_authors.

(** [[l.rstrip() for l in f.readlines()]] *)
Definition lines_of (text : str) : list str := rstrip <$> readlines text.

(** [for i in range(4, min(bound, len(lines)))], lines 14 and 15 with
    [bound] 22, lines 18 and 19 with [bound] 30: the number and the line
    that are printed. *)
Definition author_lines (bound : nat) (lines : list str) : result (list (nat * str)) :=
  for_ (range 4 (bound `min` length lines)) (λ i printed,
    line ← getitem lines i;
    Ok (append printed (i + 1, line))) [].

(** Lines 22 to 26. *)
Definition count_author_diffs (docling_lines precision_lines : list str) : result nat :=
  for_ (range 4 22) (λ i author_diffs,
    if bool_decide (i < length docling_lines) && bool_decide (i < length precision_lines)
    then
      d ← getitem docling_lines i;
      p ← getitem precision_lines i;
      Ok (if bool_decide (d ≠ p) then author_diffs + 1 else author_diffs)
    else Ok author_diffs) 0.

Definition author_diffs (docling precision : str) : result nat :=
  count_author_diffs (lines_of docling) (lines_of precision).

End test_authors.

(** ** What the properties are stated with *)

Module Spec.
Import Difflib.

Section Spec.
Context {A : Type} `{Countable A}.

(** [a[i:i+k] == b[j:j+k]], with both slices inside their lists. *)
Definition matches (a b : list A) (m : Match) : Prop :=
  ∀ t, t < m.2 → ∃ x, a !! (m.1.1 + t) = Some x ∧ b !! (m.1.2 + t) = Some x.

(** The block lies in [a[alo:ahi]] and [b[blo:bhi]]. *)
Definition in_box (alo ahi blo bhi : nat) (m : Match) : Prop :=
  alo ≤ m.1.1 ∧ m.1.1 + m.2 ≤ ahi ∧ blo ≤ m.1.2 ∧ m.1.2 + m.2 ≤ bhi.

(** The blocks follow one another from [(i, j)] on: each starts at or after
    the end of the one before, on both sides. *)
Fixpoint chain (i j : nat) (l : list Match) : Prop :=
  match l with
  | [] => True
  | m :: l' => i ≤ m.1.1 ∧ j ≤ m.1.2 ∧ chain (m.1.1 + m.2) (m.1.2 + m.2) l'
  end.

(** Where a chain from [(i, j)] ends. *)
Fixpoint chain_end (i j : nat) (l : list Match) : nat * nat :=
  match l with
  | [] => (i, j)
  | m :: l' => chain_end (m.1.1 + m.2) (m.1.2 + m.2) l'
  end.

(** [sum(triple[-1] for triple in blocks)] *)
Definition matched (blocks : list Match) : nat :=
  sum_list (map (λ triple : Match, triple.2) blocks).

(** The opcodes cover [a[i:i']] and [b[j:j']] piece after piece: each
    starts where the one before ends, none is empty, and the tag says which
    side has elements. *)
Fixpoint tiles (a b : list A) (i j i' j' : nat) (ops : list Opcode) : Prop :=
  match ops with
  | [] => i = i' ∧ j = j'
  | (tag, i1, i2, j1, j2) :: ops' =>
      i1 = i ∧ j1 = j ∧ i1 ≤ i2 ∧ j1 ≤ j2 ∧
      match tag with
      | equal => i1 < i2 ∧ matches a b (i1, j1, i2 - i1) ∧ i2 - i1 = j2 - j1
      | replace => i1 < i2 ∧ j1 < j2
      | delete => i1 < i2 ∧ j1 = j2
      | insert => i1 = i2 ∧ j1 < j2
      end ∧
      tiles a b i2 j2 i' j' ops'
  end.

(** The indices of [b] that hold [x], in increasing order. *)
Definition positions (x : A) (b : list A) : list nat :=
  filter (λ j, b !! j = Some x) (seq 0 (length b)).

(** [b2j] maps an element to all its indices in [b], or to nothing. *)
Definition b2j_ok (self : SequenceMatcher A) : Prop :=
  ∀ x js, b2j self !! x = Some js → js = positions x (b self).

(** The two sequences have no element in common. *)
Definition disjoint (x y : list A) : Prop := ∀ c, c ∈ x → c ∉ y.

(** [run b2j d i]: how many elements of [d], going down from index [i], are
    keys of [b2j] without interruption. *)
Fixpoint run (b2j : gmap A (list nat)) (d : list A) (i : nat) : nat :=
  match d !! i with
  | Some x =>
      if bool_decide (is_Some (b2j !! x)) then
        match i with
        | 0 => 1
        | S i' => S (run b2j d i')
        end
      else 0
  | None => 0
  end.

End Spec.

(** The box that a block fills. *)
Definition box_of (m : Match) : box := (m.1.1, m.1.1 + m.2, m.1.2, m.1.2 + m.2).

(** [r1] ends before [r2] starts, on both sides. *)
Definition before (r1 r2 : box) : Prop :=
  r1.1.1.2 ≤ r2.1.1.1 ∧ r1.2 ≤ r2.1.2.

Definition apart (r1 r2 : box) : Prop := before r1 r2 ∨ before r2 r1.

Definition inside (r q : box) : Prop :=
  q.1.1.1 ≤ r.1.1.1 ∧ r.1.1.2 ≤ q.1.1.2 ∧ q.1.2 ≤ r.1.2 ∧ r.2 ≤ q.2.

(** Any two boxes of the list are apart. *)
Inductive scattered : list box → Prop :=
| scattered_nil : scattered []
| scattered_cons r l : Forall (apart r) l → scattered l → scattered (r :: l).

(** The budget of the loop of [get_matching_blocks] that a queue uses. *)
Definition weight (queue : list box) : nat :=
  sum_list ((λ q : box, 2 * (q.1.1.2 - q.1.1.1) + 1) <$> queue).

End Spec.
Import Spec.

Module FlmSpec.
Import Difflib.
Section FlmSpec.
Context {A : Type} `{Countable A}.
Variable self : SequenceMatcher A.
Variables alo ahi blo bhi : nat.

(** A block of the box that matches. *)
Definition good (m : Match) : Prop :=
  in_box alo ahi blo bhi m ∧ matches (a self) (b self) m.

(** A match of [k] elements that ends at [a[i]] and [b[j]], in the box. *)
Definition ends_at (i j k : nat) : Prop :=
  1 ≤ k ∧ k ≤ i + 1 - alo ∧ k ≤ j + 1 - blo ∧ i < ahi ∧ j < bhi ∧
  matches (a self) (b self) (i + 1 - k, j + 1 - k, k).

(** The values of [j2len] when row [i] is about to be scanned. *)
Definition row_before (i : nat) (j2len : gmap nat nat) : Prop :=
  ∀ j k, j2len !! j = Some k → ∃ i', i = S i' ∧ ends_at i' j k.

(** The state of the loop over [i] once the rows of [done] are scanned. *)
Definition scanned (done : list nat) (s : gmap nat nat * Match) : Prop :=
  row_before (alo + length done) s.1 ∧ good s.2 ∧
  ∀ i j x, i ∈ done → a self !! i = Some x → b self !! j = Some x →
    blo ≤ j < bhi → is_Some (b2j self !! x) → 1 ≤ s.2.2.

End FlmSpec.
End FlmSpec.
Import FlmSpec.

Module BlocksSpec.
Import Difflib.
Section BlocksSpec.
Context {A : Type} `{Countable A}.
Variable self : SequenceMatcher A.

(** A box of the queue lies in the two sequences. *)
Definition box_ok (q : box) : Prop :=
  q.1.1.1 ≤ q.1.1.2 ≤ length (a self) ∧ q.1.2 ≤ q.2 ≤ length (b self).

(** A block found by the loop: not empty, in the two sequences, matching. *)
Definition block_ok (m : Match) : Prop :=
  1 ≤ m.2 ∧ in_box 0 (length (a self)) 0 (length (b self)) m ∧
  matches (a self) (b self) m.

(** There is an element of [a] that is a key of [b2j], at an index of [b]
    that holds it. *)
Definition meet : Prop :=
  ∃ i j x, a self !! i = Some x ∧ b self !! j = Some x ∧ is_Some (b2j self !! x).

(** The state [(queue, matching_blocks)] of the loop of
    [get_matching_blocks]. *)
Definition splitting (s : list box * list Match) : Prop :=
  Forall box_ok s.1 ∧ Forall block_ok s.2 ∧
  scattered (s.1 ++ (box_of <$> s.2)) ∧
  (s.2 = [] → s.1 = [(0, length (a self), 0, length (b self))] ∨ ¬ meet).

End BlocksSpec.

(** The state [(i1, j1, k1, non_adjacent)] of the collapsing loop stands
    for the blocks of [non_adjacent] and then [(i1, j1, k1)]. *)
Definition pending (s : Match * list Match) : list Match := s.2 ++ [s.1].

End BlocksSpec.
Import BlocksSpec.

Module DiagSpec.
Import Difflib.
Section DiagSpec.
Context {A : Type} `{Countable A}.
Variable self : SequenceMatcher A.

(** The values of [j2len] when row [i] is about to be scanned, for a
    sequence compared with itself: no entry is longer than the run that
    ends at its index or at the row before, and the entry on the diagonal
    is that run. *)
Definition diag_row (i : nat) (j2len : gmap nat nat) : Prop :=
  (∀ j k, j2len !! j = Some k →
     ∃ i', i = S i' ∧ k ≤ run (b2j self) (b self) j ∧ k ≤ run (b2j self) (b self) i') ∧
  (∀ i' x, i = S i' → b self !! i' = Some x → is_Some (b2j self !! x) →
     j2len !! i' = Some (run (b2j self) (b self) i')).

(** The best match then: on the diagonal, and as long as every run that
    ends before row [i]. *)
Definition diag_best (i : nat) (best : Match) : Prop :=
  best.1.1 = best.1.2 ∧ ∀ i', i' < i → run (b2j self) (b self) i' ≤ best.2.

End DiagSpec.
End DiagSpec.
Import DiagSpec.

#[export] Instance disjoint_dec {A : Type} `{Countable A} (x y : list A) :
  Decision (Spec.disjoint x y).
Proof.
  refine (cast_if (decide (Forall (λ c, c ∉ y) x)));
    unfold Spec.disjoint; by rewrite Forall_forall in *.
Defined.

(** The two ways into the wrong-joins counter of [detailed_diff.py]. *)
Module JoinSpec.
Import detailed_diff.

(** An extra line whose content has ['Abstract'] in it. *)
Definition is_extra_abstract (x : issue) : bool :=
  bool_decide (x.1 = extra) && contains (lit "Abstract") x.2.

(** A line of either kind whose content has ['Introduction'] in it. *)
Definition has_introduction (x : issue) : bool :=
  contains (lit "Introduction") x.2.

(** The number of counters among missing blank line, extra blank line and
    missing header that take the issue. *)
Definition structural_buckets (x : issue) : nat :=
  (if is_missing_break x then 1 else 0) + (if is_extra_break x then 1 else 0)
  + (if is_missing_header x then 1 else 0).

(** The number of counters of the script that take the issue. *)
Definition buckets (x : issue) : nat :=
  structural_buckets x + (if is_wrong_join x then 1 else 0).

End JoinSpec.
Import JoinSpec.

(** What a line of the section analysis of [compare_detailed.py] is made
    of. *)
Module SectionSpec.
Import compare_detailed.

(** The line printed for the sections [d_sec] and [p_sec] at position [i]. *)
Definition emits (i : nat) (d_sec p_sec : str) (entry : section_line) : Prop :=
  10 ≤ length d_sec ∧
  ∃ first rest,
    split d_sec [nl] = first :: rest ∧
    entry.1 = (i, slice first 0 50) ∧
    similarity d_sec p_sec = Ok entry.2.

(** The line is that of two sections at the same position, among the first
    five of each text. *)
Definition reported (docling precision : str) (entry : section_line) : Prop :=
  ∃ d_sec p_sec,
    entry.1.1 < 5 ∧
    sections docling !! entry.1.1 = Some d_sec ∧
    sections precision !! entry.1.1 = Some p_sec ∧
    emits entry.1.1 d_sec p_sec entry.

(** The first line of a section, which the script takes for its title. *)
Definition title (section : str) : str := default [] (head (split section [nl])).

End SectionSpec.
Import SectionSpec.

(** What the properties of the texts are stated with. *)
Module TextSpec.

(** A text of whitespace only. *)
Definition blank (s : str) : Prop := Forall (λ c, isspace c = true) s.

(** The number of line feeds of a text. *)
Definition newlines (s : str) : nat := length (filter (λ c, c = nl) s).

End TextSpec.
Import TextSpec.

(** What the properties of the printing loop of [compare_detailed.py] are
    stated with. *)
Module ShownSpec.
Import compare_detailed.



End ShownSpec.
Import ShownSpec.

(** * Properties *)
(** ** The error monad and the loops *)

Import Difflib Unified.

(** [l !! n = Some x] from a hypothesis [l !! n' = Some x] with [n = n']. *)
Ltac same_index H := rewrite <- H; f_equal; simpl in *; lia.

Lemma bind_Ok {T U} (m : result T) (f : T → result U) y :
  m ≫= f = Ok y ↔ ∃ x, m = Ok x ∧ f x = Ok y.
Proof.
  destruct m as [x|e]; simpl; split.
  - intros Hf. eauto.
  - intros (x' & [= <-] & Hf). done.
  - done.
  - intros (x' & [=] & _).
Qed.

Lemma getitem_Ok {T} (l : list T) i x : l !! i = Some x → getitem l i = Ok x.
Proof. unfold getitem. by intros ->. Qed.

Lemma getitem_lt {T} (l : list T) i : i < length l → ∃ x, l !! i = Some x ∧ getitem l i = Ok x.
Proof.
  intros Hi. destruct (lookup_lt_is_Some_2 l i Hi) as [x Hx].
  exists x. split; [done | by apply getitem_Ok].
Qed.

Lemma getlast_snoc {T} (l : list T) x : getlast (l ++ [x]) = Ok x.
Proof. unfold getlast. by rewrite last_snoc. Qed.

Lemma pop_snoc {T} (l : list T) x : pop (l ++ [x]) = Ok (x, l).
Proof. unfold pop. rewrite reverse_snoc. simpl. by rewrite reverse_involutive. Qed.

Lemma pop_Ok {T} (l : list T) : l ≠ [] → ∃ x l', l = l' ++ [x] ∧ pop l = Ok (x, l').
Proof.
  intros Hl. destruct (decide (l = [])) as [|_]; [done|].
  induction l as [|y l IH] using rev_ind; [done|].
  exists y, l. split; [done | apply pop_snoc].
Qed.

(** A [while] loop with an invariant [I] and a measure [μ] that every turn
    decreases returns, in a state where the invariant holds and the
    condition is false. *)
Lemma while_rule {S} (I : S → Prop) (μ : S → nat) cond body :
  (∀ s, I s → ∃ c, cond s = Ok c ∧
     (c = true → ∃ s', body s = Ok s' ∧ I s' ∧ μ s' < μ s)) →
  ∀ fuel s, I s → μ s ≤ fuel →
  ∃ s', while fuel cond body s = Ok s' ∧ I s' ∧ cond s' = Ok false.
Proof.
  intros Hstep fuel. induction fuel as [|fuel IH]; intros s Hs Hμ.
  - destruct (Hstep s Hs) as (c & Hc & Hbody). simpl. rewrite Hc. simpl.
    destruct c.
    + destruct Hbody as (s' & _ & _ & Hlt); [done | lia].
    + eauto.
  - destruct (Hstep s Hs) as (c & Hc & Hbody). simpl. rewrite Hc. simpl.
    destruct c.
    + destruct Hbody as (s' & Hs' & HI & Hlt); [done|].
      rewrite Hs'. simpl. apply IH; [done | lia].
    + eauto.
Qed.

(** A [for] loop whose body returns and keeps [I] returns: [I done s]
    speaks of the elements already seen. *)
Lemma for_rule {T S} (I : list T → S → Prop) (body : T → S → result S) :
  ∀ todo done s,
  I done s →
  (∀ pre x post s, done ++ todo = pre ++ x :: post → length done ≤ length pre →
     I pre s → ∃ s', body x s = Ok s' ∧ I (pre ++ [x]) s') →
  ∃ s', for_ todo body s = Ok s' ∧ I (done ++ todo) s'.
Proof.
  induction todo as [|x todo IH]; intros done s Hs Hbody.
  - exists s. rewrite app_nil_r. done.
  - destruct (Hbody done x todo s) as (s' & Hs' & HI); [done | done | done |].
    simpl. rewrite Hs'. simpl.
    replace (done ++ x :: todo) with ((done ++ [x]) ++ todo) by (by rewrite <- app_assoc).
    apply IH; [done|]. intros pre y post s0 Heq Hlen.
    apply (Hbody pre y post); [by rewrite <- Heq, <- app_assoc | rewrite length_app in Hlen; lia].
Qed.

Lemma range_split lo hi pre i post :
  range lo hi = pre ++ i :: post → i = lo + length pre ∧ lo ≤ i < hi.
Proof.
  unfold range. intros Heq.
  assert (seq lo (hi - lo) !! length pre = Some i) as Hi.
  { rewrite Heq. by apply list_lookup_middle. }
  apply lookup_seq in Hi. lia.
Qed.


(** ** [__chain_b] *)

Section ChainB.
Context {A : Type} `{Countable A}.
Implicit Types (b : list A) (x y : A).

Lemma filter_ext_elem_of {T} (P Q : T → Prop) `{!∀ z, Decision (P z), !∀ z, Decision (Q z)}
    (l : list T) :
  (∀ z, z ∈ l → P z ↔ Q z) → filter P l = filter Q l.
Proof.
  induction l as [|z l IH]; intros HPQ; [done|].
  rewrite !filter_cons, IH by (intros; apply HPQ; by right).
  destruct (decide (P z)) as [HP|HP], (decide (Q z)) as [HQ|HQ]; try done;
    exfalso; apply (HPQ z) in HP || apply (HPQ z) in HQ; by try left.
Qed.

Lemma elem_of_positions x b j : j ∈ positions x b ↔ b !! j = Some x.
Proof.
  unfold positions. rewrite list_elem_of_filter, elem_of_seq. split.
  - by intros [? _].
  - intros Hj. split; [done|]. apply lookup_lt_Some in Hj. lia.
Qed.

Lemma positions_snoc x b y :
  positions x (b ++ [y]) = positions x b ++ (if decide (y = x) then [length b] else []).
Proof.
  unfold positions. rewrite length_app. simpl. rewrite seq_app, filter_app. f_equal.
  - apply filter_ext_elem_of. intros j Hj. apply elem_of_seq in Hj.
    rewrite lookup_app_l by lia. done.
  - simpl. rewrite filter_cons, filter_nil, list_lookup_middle by done.
    destruct (decide (y = x)) as [->|Hne].
    + by rewrite decide_True.
    + rewrite decide_False; [done | congruence].
Qed.

Lemma positions_lt x b j : j ∈ positions x b → j < length b.
Proof. rewrite elem_of_positions. apply lookup_lt_Some. Qed.

Lemma positions_sorted x b : StronglySorted lt (positions x b).
Proof.
  induction b as [|y b IH] using rev_ind; [constructor|].
  rewrite positions_snoc. apply StronglySorted_app_2; [|done|].
  - intros j1 j2 Hj1%positions_lt Hj2. destruct (decide (y = x)); [|by apply elem_of_nil in Hj2].
    apply list_elem_of_singleton in Hj2 as ->. done.
  - destruct (decide (y = x)); repeat constructor.
Qed.

Lemma index_b_snoc b y :
  index_b (b ++ [y])
  = <[y := append (default [] (index_b b !! y)) (length b)]> (index_b b).
Proof.
  unfold index_b, enumerate. rewrite imap_app, foldl_app. simpl.
  by rewrite Nat.add_0_r.
Qed.

Lemma index_b_lookup b x :
  index_b b !! x = if decide (x ∈ b) then Some (positions x b) else None.
Proof.
  induction b as [|y b IH] using rev_ind.
  - rewrite decide_False by apply not_elem_of_nil. done.
  - rewrite index_b_snoc, positions_snoc. destruct (decide (y = x)) as [->|Hne].
    + rewrite lookup_insert_eq, IH.
      rewrite (decide_True (P := x ∈ b ++ [x])) by (apply elem_of_app; right; by left).
      unfold append. destruct (decide (x ∈ b)) as [|Hx]; [done|]. simpl.
      replace (positions x b) with (@nil nat); [done|].
      symmetry. apply elem_of_nil_inv. intros j Hj. apply Hx.
      apply elem_of_positions in Hj. by eapply list_elem_of_lookup_2.
    + rewrite lookup_insert_ne, IH, app_nil_r by done.
      destruct (decide (x ∈ b)) as [Hx|Hx].
      * rewrite (decide_True (P := x ∈ b ++ [y])); [done | apply elem_of_app; by left].
      * rewrite (decide_False (P := x ∈ b ++ [y])); [done|].
        rewrite elem_of_app, list_elem_of_singleton. intros [?|?]; [done | by subst].
Qed.

Lemma purge_lookup (s : gset A) (m : gmap A (list nat)) x js :
  purge s m !! x = Some js → m !! x = Some js.
Proof. unfold purge. rewrite map_lookup_filter_Some. by intros [? _]. Qed.

Lemma purge_empty (m : gmap A (list nat)) : purge ∅ m = m.
Proof. unfold purge. apply map_filter_id. intros. set_solver. Qed.

Lemma new_b2j_ok isjunk (a b : list A) autojunk : b2j_ok (new isjunk a b autojunk).
Proof.
  intros x js. simpl. intros Hx%purge_lookup%purge_lookup.
  rewrite index_b_lookup in Hx. destruct (decide (x ∈ b)); by simplify_eq.
Qed.

(** Below 200 elements nothing is popular, and without [isjunk] every
    element of [b] is a key of [b2j]. *)
Lemma new_b2j_small (a b : list A) autojunk x :
  length b < 200 → x ∈ b →
  b2j (new None a b autojunk) !! x = Some (positions x b).
Proof.
  intros Hlen Hx. simpl. unfold junk_of, popular_of.
  rewrite (bool_decide_eq_false_2 (200 ≤ length b)) by lia.
  rewrite andb_false_r, !purge_empty, index_b_lookup. by rewrite decide_True.
Qed.

End ChainB.

(** ** [find_longest_match] *)

Section FindLongestMatch.
Context {A : Type} `{Countable A}.
Variable self : SequenceMatcher A.
Hypothesis Hb2j : b2j_ok self.
Variables alo ahi blo bhi : nat.
Hypothesis Ha : alo ≤ ahi ≤ length (a self).
Hypothesis Hb : blo ≤ bhi ≤ length (b self).

Local Abbreviation good := (good self alo ahi blo bhi).
Local Abbreviation ends_at := (ends_at self alo ahi blo bhi).
Local Abbreviation row_before := (row_before self alo ahi blo bhi).
Local Abbreviation scanned := (scanned self alo ahi blo bhi).

Lemma good_start : good (alo, blo, 0).
Proof. unfold FlmSpec.good. split; [unfold in_box; simpl; lia | intros t Ht; simpl in Ht; lia]. Qed.

Lemma ends_at_good i j k : ends_at i j k → good (i + 1 - k, j + 1 - k, k).
Proof.
  intros (? & ? & ? & ? & ? & ?). split; [unfold in_box; simpl; lia | done].
Qed.

Lemma ends_at_next i j x :
  a self !! i = Some x → b self !! j = Some x →
  alo ≤ i < ahi → blo ≤ j < bhi →
  ∀ prev, row_before i prev → ends_at i j (j2lenget prev j + 1).
Proof.
  intros Hai Hbj Hi Hj prev Hprev.
  assert (ends_at i j 1) as H1.
  { repeat split; try lia. intros t Ht. exists x. simpl in *.
    split; [same_index Hai | same_index Hbj]. }
  destruct j as [|j']; [exact H1|]. unfold j2lenget.
  destruct (prev !! j') as [k|] eqn:Hk; [|done]. simpl.
  destruct (Hprev j' k Hk) as (i' & -> & (? & ? & ? & ? & ? & Hm)).
  repeat split; try lia. intros t Ht. simpl in *.
  destruct (decide (t < k)) as [Hlt|Hge].
  - destruct (Hm t Hlt) as (y & Hy1 & Hy2). exists y.
    split; [same_index Hy1 | same_index Hy2].
  - exists x. split; [same_index Hai | same_index Hbj].
Qed.

Lemma scan_row_spec i x prev :
  a self !! i = Some x → alo ≤ i < ahi → row_before i prev →
  ∀ js new best,
  (∀ j, j ∈ js → b self !! j = Some x) →
  StronglySorted lt js →
  (∀ j k, new !! j = Some k → ends_at i j k) →
  good best →
  ∃ new' best', scan_row blo bhi prev i js new best = (new', best') ∧
    (∀ j k, new' !! j = Some k → ends_at i j k) ∧ good best' ∧
    best.2 ≤ best'.2 ∧
    (∀ j, j ∈ js → blo ≤ j < bhi → 1 ≤ best'.2).
Proof.
  intros Hai Hi Hprev js. induction js as [|j js IH]; intros new best Hjs Hsorted Hnew Hbest.
  { exists new, best. split_and!; try done. intros j Hj. by apply elem_of_nil in Hj. }
  apply StronglySorted_cons in Hsorted as [Hlt Hsorted]. rewrite Forall_forall in Hlt.
  simpl. case_bool_decide as Hlo.
  { destruct (IH new best) as (new' & best' & -> & ? & ? & ? & Hone); try done.
    { intros; apply Hjs; by right. }
    exists new', best'. split_and!; try done.
    intros j' [->|Hj']%elem_of_cons ?; [lia | by apply (Hone j')]. }
  case_bool_decide as Hhi.
  { exists new, best. split_and!; try done.
    intros j' [->|Hj']%elem_of_cons ?; [lia|]. apply Hlt in Hj'. lia. }
  assert (ends_at i j (j2lenget prev j + 1)) as Hk.
  { eapply ends_at_next; try done; [apply Hjs; by left | lia]. }
  set (k := j2lenget prev j + 1) in *.
  set (best1 := if bool_decide (best.2 < k) then (i + 1 - k, j + 1 - k, k) else best).
  assert (good best1 ∧ best.2 ≤ best1.2 ∧ 1 ≤ best1.2) as (Hg1 & Hmono & Hone1).
  { unfold best1. destruct Hk as (Hk1 & Hk'). case_bool_decide; simpl.
    - split; [by apply ends_at_good | lia].
    - split; [done | lia]. }
  destruct (IH (<[j:=k]> new) best1) as (new' & best' & -> & ? & ? & ? & Hone); try done.
  { intros; apply Hjs; by right. }
  { intros j' k'. rewrite lookup_insert. case_decide; [intros [= <-]; by subst | apply Hnew]. }
  exists new', best'. split_and!; try done; lia.
Qed.

Lemma scan_rows_spec :
  ∃ s, for_ (range alo ahi) (λ i '(j2len, best),
         ai ← getitem (a self) i;
         Ok (scan_row blo bhi j2len i (default [] (b2j self !! ai)) ∅ best))
       (∅, (alo, blo, 0)) = Ok s ∧ scanned (range alo ahi) s.
Proof.
  apply (for_rule scanned _ (range alo ahi) []).
  { split_and!; [| apply good_start |].
    - intros j k Hk. simpl in Hk. by rewrite lookup_empty in Hk.
    - intros i j x Hi. by apply elem_of_nil in Hi. }
  intros pre i post [j2len best] Heq%range_split _ (Hrow & Hgood & Hseen).
  destruct Heq as [-> Hi]. simpl in *.
  destruct (getitem_lt (a self) (alo + length pre)) as (x & Hx & ->); [lia|]. simpl.
  set (js := default [] (b2j self !! x)).
  assert (js = [] ∨ js = positions x (b self)) as Hjs.
  { unfold js. destruct (b2j self !! x) as [l|] eqn:Hl; [right; by apply Hb2j | by left]. }
  destruct (scan_row_spec (alo + length pre) x j2len Hx Hi Hrow js ∅ best)
    as (new' & best' & -> & Hnew & Hgood' & Hmono & Hone).
  - intros j Hj. destruct Hjs as [Hjs|Hjs]; rewrite Hjs in Hj;
      [by apply elem_of_nil in Hj | by apply elem_of_positions].
  - destruct Hjs as [->| ->]; [constructor | apply positions_sorted].
  - intros j k Hk. by rewrite lookup_empty in Hk.
  - done.
  - eexists. split; [done|]. split_and!; simpl.
    + intros j k Hk. exists (alo + length pre). split; [rewrite length_app; simpl; lia | by apply Hnew].
    + apply Hgood'.
    + intros i j y [Hpre| ->%list_elem_of_singleton]%elem_of_app Hy Hj Hjr Hkey.
      * specialize (Hseen i j y Hpre Hy Hj Hjr Hkey). lia.
      * assert (y = x) as -> by congruence. apply (Hone j); [|done].
        destruct Hkey as [l Hl]. unfold js. rewrite Hl. simpl.
        rewrite (Hb2j _ _ Hl). by apply elem_of_positions.
Qed.

(** The two kinds of loops that extend the best match keep it in the box
    and matching, and keep any property [Q] that one more equal element on
    the side keeps. *)
Lemma grow_left_rule (Q : Match → Prop) junk :
  (∀ i j k x, Q (i, j, k) → alo < i → blo < j →
     a self !! (i - 1) = Some x → b self !! (j - 1) = Some x →
     bool_decide (x ∈ bjunk self) = junk → Q (i - 1, j - 1, k + 1)) →
  ∀ m, good m → Q m →
  ∃ m', while ahi (grows_left (a self) (b self) (bjunk self) junk alo blo) step_left m
        = Ok m' ∧ good m' ∧ Q m' ∧
        grows_left (a self) (b self) (bjunk self) junk alo blo m' = Ok false.
Proof.
  intros HQ m Hm HQm.
  destruct (while_rule (λ m, good m ∧ Q m) (λ m, m.1.1)
              (grows_left (a self) (b self) (bjunk self) junk alo blo) step_left)
    with (fuel := ahi) (s := m) as (m' & Hw & [Hg' HQ'] & Hc).
  - clear m Hm HQm. intros [[i j] k] [[Hbox Hm] HQm]. unfold in_box in Hbox. simpl in *.
    case_bool_decide; simpl; [|by eexists].
    case_bool_decide; simpl; [|by eexists].
    destruct (getitem_lt (b self) (j - 1)) as (y & Hy & ->); [lia|]. simpl.
    case_bool_decide as Hjunk; simpl; [|by eexists].
    destruct (getitem_lt (a self) (i - 1)) as (x & Hx & ->); [lia|]. simpl.
    eexists. split; [done|]. intros Hxy%bool_decide_eq_true. subst y.
    eexists. split; [done|]. simpl. split; [|lia]. split; [split|].
    + unfold in_box. simpl. lia.
    + intros t Ht. simpl in *. destruct t as [|t].
      * exists x. split; [same_index Hx | same_index Hy].
      * destruct (Hm t) as (z & Hz1 & Hz2); [simpl; lia|]. exists z.
        split; [same_index Hz1 | same_index Hz2].
    + by eapply HQ.
  - done.
  - destruct Hm as [Hbox _]. unfold in_box in Hbox. lia.
  - eauto.
Qed.

Lemma grow_right_rule (Q : Match → Prop) junk :
  (∀ i j k x, Q (i, j, k) → i + k < ahi → j + k < bhi →
     a self !! (i + k) = Some x → b self !! (j + k) = Some x →
     bool_decide (x ∈ bjunk self) = junk → Q (i, j, k + 1)) →
  ∀ m, good m → Q m →
  ∃ m', while ahi (grows_right (a self) (b self) (bjunk self) junk ahi bhi) step_right m
        = Ok m' ∧ good m' ∧ Q m' ∧
        grows_right (a self) (b self) (bjunk self) junk ahi bhi m' = Ok false.
Proof.
  intros HQ m Hm HQm.
  destruct (while_rule (λ m, good m ∧ Q m) (λ m, ahi - (m.1.1 + m.2))
              (grows_right (a self) (b self) (bjunk self) junk ahi bhi) step_right)
    with (fuel := ahi) (s := m) as (m' & Hw & [Hg' HQ'] & Hc).
  - clear m Hm HQm. intros [[i j] k] [[Hbox Hm] HQm]. unfold in_box in Hbox. simpl in *.
    case_bool_decide; simpl; [|by eexists].
    case_bool_decide; simpl; [|by eexists].
    destruct (getitem_lt (b self) (j + k)) as (y & Hy & ->); [lia|]. simpl.
    case_bool_decide as Hjunk; simpl; [|by eexists].
    destruct (getitem_lt (a self) (i + k)) as (x & Hx & ->); [lia|]. simpl.
    eexists. split; [done|]. intros Hxy%bool_decide_eq_true. subst y.
    eexists. split; [done|]. simpl. split; [|lia]. split; [split|].
    + unfold in_box. simpl. lia.
    + intros t Ht. simpl in *. destruct (decide (t < k)) as [Hlt|Hge].
      * by apply Hm.
      * exists x. split; [same_index Hx | same_index Hy].
    + by eapply HQ.
  - done.
  - simpl. lia.
  - eauto.
Qed.

(** [find_longest_match] returns a matching block of the box, and one that
    is not empty when the box holds an element of [a] and an equal one of
    [b] that is a key of [b2j]. *)
Lemma find_longest_match_spec :
  ∃ m, find_longest_match self alo ahi blo bhi = Ok m ∧ good m ∧
    ∀ i j x, alo ≤ i < ahi → blo ≤ j < bhi →
      a self !! i = Some x → b self !! j = Some x → is_Some (b2j self !! x) →
      1 ≤ m.2.
Proof.
  unfold find_longest_match.
  destruct scan_rows_spec as ([j2len m0] & -> & _ & Hg0 & Hseen). simpl in *.
  destruct (grow_left_rule (λ m, m0.2 ≤ m.2) false) with (m := m0)
    as (m1 & -> & Hg1 & Hq1 & _); [simpl; intros; lia | done | done |]. simpl.
  destruct (grow_right_rule (λ m, m0.2 ≤ m.2) false) with (m := m1)
    as (m2 & -> & Hg2 & Hq2 & _); [simpl; intros; lia | done | done |]. simpl.
  destruct (grow_left_rule (λ m, m0.2 ≤ m.2) true) with (m := m2)
    as (m3 & -> & Hg3 & Hq3 & _); [simpl; intros; lia | done | done |]. simpl.
  destruct (grow_right_rule (λ m, m0.2 ≤ m.2) true) with (m := m3)
    as (m4 & -> & Hg4 & Hq4 & _); [simpl; intros; lia | done | done |]. simpl.
  exists m4. split_and!; [done | done |].
  intros i j x Hi Hj Hx Hy Hkey. simpl in *.
  assert (1 ≤ m0.2); [|lia].
  apply (Hseen i j x); try done. unfold range. apply elem_of_seq. lia.
Qed.

End FindLongestMatch.

(** ** [get_matching_blocks] *)

#[local] Instance Match_le_total : Total Match_le.
Proof. intros [[??]?] [[??]?]. unfold Match_le. lia. Qed.

#[local] Instance Match_le_trans : Transitive Match_le.
Proof. intros [[??]?] [[??]?] [[??]?]. unfold Match_le. lia. Qed.

Lemma apart_sym r1 r2 : apart r1 r2 → apart r2 r1.
Proof. unfold apart. tauto. Qed.

Lemma apart_inside r q x : inside r q → apart q x → apart r x.
Proof. unfold inside, apart, before. lia. Qed.

Lemma scattered_perm l l' : l ≡ₚ l' → scattered l → scattered l'.
Proof.
  induction 1 as [|x l l' Hp IH|x y l|l1 l2 l3 _ IH1 _ IH2]; intros Hs.
  - done.
  - inversion_clear Hs. constructor; [by rewrite <- Hp | by apply IH].
  - inversion_clear Hs as [|? ? Hy Hs']. inversion_clear Hs' as [|? ? Hx Hl].
    inversion_clear Hy as [|? ? Hyx Hyl].
    constructor; [constructor; [by apply apart_sym | done] | by constructor].
  - by apply IH2, IH1.
Qed.

(** The boxes cut out of a box of a scattered list keep it scattered. *)
Lemma scattered_refine q rest news :
  scattered (q :: rest) → Forall (λ r, inside r q) news → scattered news →
  scattered (news ++ rest).
Proof.
  intros Hq Hin Hnews. inversion_clear Hq as [|? ? Hqrest Hrest].
  induction Hnews as [|r news Hr Hnews IH]; [done|].
  inversion_clear Hin as [|? ? Hrq Hin']. simpl. constructor; [|by apply IH].
  apply Forall_app. split; [done|].
  eapply Forall_impl; [exact Hqrest|]. intros x. by apply apart_inside.
Qed.

Lemma scattered_one r : scattered [r].
Proof. constructor; constructor. Qed.

Lemma scattered_two r1 r2 : apart r1 r2 → scattered [r1; r2].
Proof. intros. constructor; [by constructor | apply scattered_one]. Qed.

Lemma scattered_three r1 r2 r3 :
  apart r1 r2 → apart r1 r3 → apart r2 r3 → scattered [r1; r2; r3].
Proof. intros. constructor; [by repeat apply Forall_cons_2 | by apply scattered_two]. Qed.

Lemma push_perm_1 {T} (M : T) q bb : [M] ++ q ++ bb ≡ₚ q ++ bb ++ [M].
Proof. solve_Permutation. Qed.

Lemma push_perm_2 {T} (L M : T) q bb : [L; M] ++ q ++ bb ≡ₚ (q ++ [L]) ++ bb ++ [M].
Proof. solve_Permutation. Qed.

Lemma push_perm_3 {T} (L R M : T) q bb :
  [L; R; M] ++ q ++ bb ≡ₚ ((q ++ [L]) ++ [R]) ++ bb ++ [M].
Proof. solve_Permutation. Qed.

Lemma weight_app q1 q2 : weight (q1 ++ q2) = weight q1 + weight q2.
Proof. unfold weight. by rewrite fmap_app, sum_list_with_app. Qed.

Section MatchingBlocks.
Context {A : Type} `{Countable A}.
Variable self : SequenceMatcher A.
Hypothesis Hb2j : b2j_ok self.

Local Abbreviation la := (length (a self)).
Local Abbreviation lb := (length (b self)).
Local Abbreviation box_ok := (box_ok self).
Local Abbreviation block_ok := (block_ok self).
Local Abbreviation splitting := (splitting self).
Local Abbreviation meet := (meet self).

Lemma splitting_start : splitting ([(0, la, 0, lb)], []).
Proof.
  split_and!; simpl.
  - apply Forall_singleton. unfold BlocksSpec.box_ok. simpl. lia.
  - constructor.
  - apply scattered_one.
  - by left.
Qed.

(** One turn of the loop keeps the state well formed and uses budget. *)
Lemma split_block_spec s :
  splitting s → s.1 ≠ [] →
  ∃ s', split_block self s = Ok s' ∧ splitting s' ∧ weight s'.1 < weight s.1.
Proof.
  destruct s as [queue blocks]. intros (Hq & Hbl & Hsc & Hfirst) Hne. simpl in *.
  destruct (pop_Ok queue Hne) as ([[[alo ahi] blo] bhi] & queue' & -> & Hpop).
  unfold split_block. rewrite Hpop. simpl.
  apply Forall_app in Hq as [Hq' Hbox]. inversion_clear Hbox as [|? ? [Hqa Hqb] _].
  simpl in Hqa, Hqb.
  destruct (find_longest_match_spec self Hb2j alo ahi blo bhi Hqa Hqb)
    as ([[i j] k] & -> & [Hbox Hm] & Hmeet).
  unfold in_box in Hbox. simpl in *.
  assert (scattered ((alo, ahi, blo, bhi) :: queue' ++ (box_of <$> blocks))) as Hsc'.
  { eapply scattered_perm; [|exact Hsc]. rewrite <- app_assoc. simpl.
    by rewrite <- Permutation_middle. }
  case_bool_decide as Hk; simpl.
  - set (L := (alo, i, blo, j) : box). set (R := (i + k, ahi, j + k, bhi) : box).
    set (M := box_of (i, j, k)).
    assert (inside L (alo, ahi, blo, bhi) ∧ inside R (alo, ahi, blo, bhi)
            ∧ inside M (alo, ahi, blo, bhi)) as (HL & HR & HM).
    { unfold inside, L, R, M, box_of. simpl. lia. }
    assert (apart L M ∧ apart R M ∧ apart L R) as (HLM & HRM & HLR).
    { unfold apart, before, L, R, M, box_of. simpl. lia. }
    assert (block_ok (i, j, k)) as Hblock.
    { split_and!; [simpl; lia | unfold in_box; simpl; lia | done]. }
    eexists. split; [done|]. simpl. unfold append. split.
    + split_and!; simpl.
      * repeat case_bool_decide; simpl; rewrite ?Forall_app, ?Forall_singleton;
          split_and?; try done; unfold BlocksSpec.box_ok; simpl; lia.
      * apply Forall_app. split; [done | by apply Forall_singleton].
      * rewrite fmap_app. simpl. fold M.
        repeat case_bool_decide; simpl.
        all: first
          [ eapply scattered_perm;
            [ apply push_perm_3
            | apply (scattered_refine _ _ _ Hsc');
              [by repeat apply Forall_cons_2 | by apply scattered_three] ]
          | eapply scattered_perm;
            [ apply push_perm_2
            | apply (scattered_refine _ _ _ Hsc');
              [by repeat apply Forall_cons_2 | by apply scattered_two] ]
          | eapply scattered_perm;
            [ apply push_perm_1
            | apply (scattered_refine _ _ _ Hsc');
              [by repeat apply Forall_cons_2 | by apply scattered_one] ] ].
      * intros Hnil. by apply app_eq_nil in Hnil as [_ ?].
    + rewrite !weight_app. unfold weight at 3. simpl.
      repeat case_bool_decide; simpl; rewrite ?weight_app; unfold weight; simpl; lia.
  - eexists. split; [done|]. simpl. split.
    + split_and!; simpl; [done | done | by inversion_clear Hsc' |].
      intros Hnil. right. intros (i' & j' & x & Hx & Hy & Hkey).
      destruct (Hfirst Hnil) as [Hstart|Hno]; [|apply Hno; by exists i', j', x].
      assert (queue' = [] ∧ (alo, ahi, blo, bhi) = (0, la, 0, lb)) as [_ [= -> -> -> ->]].
      { destruct queue' as [|q [|q' queue'']]; simplify_eq/=; done. }
      assert (1 ≤ k); [|lia]. apply (Hmeet i' j' x); try done.
      * apply lookup_lt_Some in Hx. lia.
      * apply lookup_lt_Some in Hy. lia.
    + rewrite weight_app. unfold weight. simpl. lia.
Qed.

(** The loop returns, with an empty queue and blocks that are apart. *)
Lemma split_loop_spec :
  ∃ blocks,
    while (2 * la + 1) (λ s, Ok (bool_decide (s.1 ≠ []))) (split_block self)
          ([(0, la, 0, lb)], []) = Ok ([], blocks) ∧
    Forall block_ok blocks ∧ scattered (box_of <$> blocks) ∧
    (meet → blocks ≠ []).
Proof.
  destruct (while_rule splitting (λ s, weight s.1)
              (λ s, Ok (bool_decide (s.1 ≠ []))) (split_block self))
    with (fuel := 2 * la + 1) (s := ([(0, la, 0, lb)], [] : list Match))
    as ([queue blocks] & Hw & (Hq & Hbl & Hsc & Hfirst) & Hc).
  - intros s Hs. eexists. split; [done|]. intros Hne%bool_decide_eq_true.
    by apply split_block_spec.
  - apply splitting_start.
  - unfold weight. simpl. lia.
  - simpl in *. injection Hc as Hc. apply bool_decide_eq_false in Hc.
    assert (queue = []) as -> by (destruct queue; [done | exfalso; by apply Hc]).
    exists blocks. split_and!; try done.
    intros Hmeet ->. destruct Hfirst as [?|?]; done.
Qed.

End MatchingBlocks.

(** ** Chains of blocks *)

Lemma chain_mono i j i' j' l : i' ≤ i → j' ≤ j → chain i j l → chain i' j' l.
Proof. destruct l as [|m l]; simpl; [done|]. intros ? ? (? & ? & ?). split_and!; [lia | lia | done]. Qed.

Lemma chain_app i j l1 l2 :
  chain i j (l1 ++ l2)
  ↔ chain i j l1 ∧ chain (chain_end i j l1).1 (chain_end i j l1).2 l2.
Proof.
  revert i j. induction l1 as [|m l1 IH]; intros i j; simpl; [tauto|].
  rewrite IH. tauto.
Qed.

Lemma chain_end_app i j l1 l2 :
  chain_end i j (l1 ++ l2) = chain_end (chain_end i j l1).1 (chain_end i j l1).2 l2.
Proof. revert i j. induction l1 as [|m l1 IH]; intros i j; simpl; [done | apply IH]. Qed.

Lemma chain_drop i j l1 m l2 : chain i j (l1 ++ m :: l2) → chain i j (l1 ++ l2).
Proof.
  rewrite !chain_app. intros [H1 H2]. split; [done|].
  simpl in H2. destruct H2 as (? & ? & H2). eapply chain_mono; [| |exact H2]; lia.
Qed.

Lemma matched_app l1 l2 : matched (l1 ++ l2) = matched l1 + matched l2.
Proof. unfold matched. by rewrite map_app, sum_list_with_app. Qed.

Lemma matched_one m : matched [m] = m.2.
Proof. unfold matched. simpl. lia. Qed.

Lemma matched_cons m l : matched (m :: l) = m.2 + matched l.
Proof. done. Qed.

(** The blocks of a chain that ends with [(la, lb, 0)] fit before [la] and
    before [lb]. *)
Lemma chain_matched la lb l : ∀ i j,
  chain i j (l ++ [(la, lb, 0)]) → i + matched l ≤ la ∧ j + matched l ≤ lb.
Proof.
  induction l as [|m l IH]; intros i j; simpl.
  - unfold matched. simpl. lia.
  - intros (? & ? & Hl). apply IH in Hl. rewrite matched_cons. lia.
Qed.

(** When they fill both sides, the two sides are equal. *)
Lemma chain_full {A} (a b : list A) la lb l : ∀ i j,
  chain i j (l ++ [(la, lb, 0)]) → Forall (matches a b) l →
  i + matched l = la → j + matched l = lb →
  ∀ t, t < matched l → ∃ x, a !! (i + t) = Some x ∧ b !! (j + t) = Some x.
Proof.
  induction l as [|[[mi mj] mk] l IH]; intros i j Hc Hm Hi Hj t Ht.
  - unfold matched in Ht. simpl in Ht. lia.
  - simpl in Hc. destruct Hc as (? & ? & Hc). apply Forall_cons in Hm as [Hm Hml].
    rewrite matched_cons in *. simpl in *.
    pose proof (chain_matched _ _ _ _ _ Hc) as [? ?].
    assert (mi = i ∧ mj = j) as [-> ->] by lia.
    destruct (decide (t < mk)) as [Hlt|Hge]; [by apply Hm|].
    destruct (IH (i + mk) (j + mk) Hc Hml) with (t := t - mk)
      as (x & Hx & Hy); [lia | lia | lia |].
    exists x. split; [same_index Hx | same_index Hy].
Qed.

(** Sorted as tuples, blocks that are apart form a chain. *)
Lemma sorted_chain la lb l : ∀ i j,
  StronglySorted Match_le l → scattered (box_of <$> l) →
  Forall (λ m : Match, 1 ≤ m.2 ∧ i ≤ m.1.1 ∧ j ≤ m.1.2
                        ∧ m.1.1 + m.2 ≤ la ∧ m.1.2 + m.2 ≤ lb) l →
  i ≤ la → j ≤ lb →
  chain i j (l ++ [(la, lb, 0)]).
Proof.
  induction l as [|[[mi mj] mk] l IH]; intros i j Hs Hsc Hl Hi Hj; simpl; [done|].
  apply StronglySorted_cons in Hs as [Hle Hs].
  inversion_clear Hsc as [|? ? Hap Hsc'].
  apply Forall_cons in Hl as [Hm Hl]. simpl in Hm.
  split_and!; [lia | lia |]. apply IH; [done | done | | lia | lia].
  rewrite Forall_forall in *. intros [[xi xj] xk] Hx.
  specialize (Hle _ Hx). specialize (Hl _ Hx). simpl in *.
  assert (apart (box_of (mi, mj, mk)) (box_of (xi, xj, xk))) as Hax.
  { rewrite Forall_forall in Hap. apply Hap. by apply (list_elem_of_fmap_2 box_of). }
  unfold apart, before, box_of in Hax. simpl in Hax. lia.
Qed.

(** ** The collapsing loop *)

Lemma collapse_chain s x rest i j :
  chain i j (pending s ++ x :: rest) → chain i j (pending (collapse s x) ++ rest).
Proof.
  destruct s as [[[i1 j1] k1] out], x as [[i2 j2] k2]. unfold pending, collapse, append.
  simpl. case_match; simpl.
  - apply andb_prop in H as [Hi%bool_decide_eq_true Hj%bool_decide_eq_true]. subst.
    rewrite <- !app_assoc, !chain_app. simpl.
    replace (i1 + (k1 + k2)) with (i1 + k1 + k2) by lia.
    replace (j1 + (k1 + k2)) with (j1 + k1 + k2) by lia. tauto.
  - destruct (bool_decide (k1 ≠ 0)); simpl.
    + by rewrite <- !app_assoc.
    + rewrite <- !app_assoc. simpl. apply chain_drop.
Qed.

Lemma collapse_matches {A} (a b : list A) s x :
  Forall (matches a b) (pending s) → matches a b x →
  Forall (matches a b) (pending (collapse s x)).
Proof.
  destruct s as [[[i1 j1] k1] out], x as [[i2 j2] k2]. unfold pending, collapse, append.
  simpl. rewrite Forall_app, Forall_singleton. intros [Hout Hcur] Hx.
  case_match; simpl.
  - apply andb_prop in H as [Hi%bool_decide_eq_true Hj%bool_decide_eq_true]. subst.
    apply Forall_app. split; [done|]. apply Forall_singleton.
    intros t Ht. simpl in *. destruct (decide (t < k1)) as [Hlt|Hge]; [by apply Hcur|].
    destruct (Hx (t - k1)) as (y & Hy1 & Hy2); [simpl; lia|]. exists y.
    split; [same_index Hy1 | same_index Hy2].
  - destruct (bool_decide (k1 ≠ 0)); simpl; rewrite ?Forall_app, ?Forall_singleton; done.
Qed.

Lemma collapse_matched s x : matched (pending (collapse s x)) = matched (pending s) + x.2.
Proof.
  destruct s as [[[i1 j1] k1] out], x as [[i2 j2] k2]. unfold pending, collapse, append.
  simpl. case_match; [|clear H; case_bool_decide]; simpl;
    rewrite ?matched_app; unfold matched; simpl; lia.
Qed.

Lemma collapse_all {A} (a b : list A) l : ∀ s,
  matched (pending (foldl collapse s l)) = matched (pending s) + matched l ∧
  (Forall (matches a b) (pending s) → Forall (matches a b) l →
   Forall (matches a b) (pending (foldl collapse s l))) ∧
  (∀ rest i j, chain i j (pending s ++ l ++ rest) →
               chain i j (pending (foldl collapse s l) ++ rest)).
Proof.
  induction l as [|x l IH]; intros s; simpl.
  - unfold matched at 3. simpl. split_and!; [lia | done | done].
  - destruct (IH (collapse s x)) as (Hsum & Hm & Hc). split_and!.
    + rewrite Hsum, collapse_matched, matched_cons. lia.
    + intros Hs [Hx Hl]%Forall_cons. apply Hm; [by apply collapse_matches | done].
    + intros rest i j Hch. by apply Hc, collapse_chain.
Qed.

Lemma matched_perm l l' : l ≡ₚ l' → matched l = matched l'.
Proof. intros Hp. unfold matched. by rewrite Hp. Qed.

Section ComputeBlocks.
Context {A : Type} `{Countable A}.
Variable self : SequenceMatcher A.
Hypothesis Hb2j : b2j_ok self.

Local Abbreviation la := (length (a self)).
Local Abbreviation lb := (length (b self)).

(** The blocks that [get_matching_blocks] computes: a chain of matching
    blocks up to the closing [(la, lb, 0)], with as many elements as the
    blocks [found] by the loop. *)
Lemma compute_matching_blocks_spec :
  ∃ found core,
    compute_matching_blocks self = Ok (core ++ [(la, lb, 0)]) ∧
    Forall (block_ok self) found ∧ (meet self → found ≠ []) ∧
    matched core = matched found ∧
    Forall (matches (a self) (b self)) core ∧
    chain 0 0 (core ++ [(la, lb, 0)]).
Proof.
  unfold compute_matching_blocks. cbv zeta.
  pose proof (split_loop_spec self Hb2j) as Hloop. unfold box in *.
  destruct Hloop as (found & -> & Hok & Hsc & Hmeet). simpl.
  set (sorted := merge_sort Match_le found).
  assert (sorted ≡ₚ found) as Hperm by apply merge_sort_Permutation.
  assert (chain 0 0 (sorted ++ [(la, lb, 0)])) as Hchain.
  { apply sorted_chain; [apply StronglySorted_merge_sort; apply _ | | | lia | lia].
    - eapply scattered_perm; [|exact Hsc]. by rewrite Hperm.
    - rewrite Hperm. eapply Forall_impl; [exact Hok|].
      intros m (? & Hbox & _). unfold in_box in Hbox. lia. }
  assert (Forall (matches (a self) (b self)) sorted) as Hms.
  { rewrite Hperm. eapply Forall_impl; [exact Hok|]. by intros m (_ & _ & ?). }
  destruct (collapse_all (a self) (b self) sorted ((0, 0, 0), [])) as (Hsum & Hm & Hc).
  specialize (Hc [(la, lb, 0)] 0 0). specialize (Hm).
  destruct (foldl collapse ((0, 0, 0), []) sorted) as [[[i1 j1] k1] out].
  unfold pending in *. simpl in *.
  assert (Forall (matches (a self) (b self)) (out ++ [(i1, j1, k1)])) as Hm'.
  { apply Hm; [|done]. apply Forall_singleton. intros t Ht. simpl in Ht. lia. }
  assert (chain 0 0 ((out ++ [(i1, j1, k1)]) ++ [(la, lb, 0)])) as Hc'.
  { apply Hc. split_and!; [lia | lia | done]. }
  rewrite matched_app, !matched_one in Hsum. simpl in Hsum.
  exists found. unfold append. case_bool_decide as Hk1.
  - exists (out ++ [(i1, j1, k1)]). split_and!; try done.
    rewrite matched_app, matched_one. simpl. rewrite <- (matched_perm _ _ Hperm). lia.
  - exists out. split_and!; try done.
    + rewrite <- (matched_perm _ _ Hperm). lia.
    + by apply Forall_app in Hm' as [? _].
    + rewrite <- app_assoc in Hc'. by apply chain_drop in Hc'.
Qed.

End ComputeBlocks.

(** ** [get_opcodes] *)

Section Opcodes.
Context {A : Type} `{Countable A}.
Variables a b : list A.

Lemma tiles_app ops1 ops2 : ∀ i j i1 j1 i2 j2,
  tiles a b i j i1 j1 ops1 → tiles a b i1 j1 i2 j2 ops2 →
  tiles a b i j i2 j2 (ops1 ++ ops2).
Proof.
  induction ops1 as [|[[[[tag p1] p2] q1] q2] ops1 IH]; intros i j i1 j1 i2 j2; simpl.
  - by intros [-> ->].
  - intros (? & ? & ? & ? & ? & Hrest) Hops2. split_and!; try done. by eapply IH.
Qed.

Lemma emit_tiles blocks : ∀ i j answer i0 j0,
  chain i j blocks → Forall (matches a b) blocks →
  tiles a b i0 j0 i j answer →
  tiles a b i0 j0 (chain_end i j blocks).1 (chain_end i j blocks).2
        (foldl emit (i, j, answer) blocks).2.
Proof.
  induction blocks as [|[[ai bj] size] blocks IH]; intros i j answer i0 j0 Hc Hm Ht;
    simpl; [done|].
  simpl in Hc. destruct Hc as (Hi & Hj & Hc). apply Forall_cons in Hm as [Hm Hms].
  unfold append.
  set (gap := if bool_decide (i < ai) && bool_decide (j < bj) then Some replace
              else if bool_decide (i < ai) then Some delete
              else if bool_decide (j < bj) then Some insert else None).
  set (answer1 := match gap with
                  | Some tag => answer ++ [(tag, i, ai, j, bj)]
                  | None => answer
                  end).
  assert (tiles a b i0 j0 ai bj answer1) as H1.
  { unfold answer1, gap. repeat case_bool_decide; simpl.
    - eapply tiles_app; [exact Ht|]. simpl. lia.
    - eapply tiles_app; [exact Ht|]. simpl. lia.
    - eapply tiles_app; [exact Ht|]. simpl. lia.
    - by replace ai with i by lia; replace bj with j by lia. }
  apply IH; [done | done |]. case_bool_decide; [|by replace size with 0 by lia; rewrite !Nat.add_0_r].
  eapply tiles_app; [exact H1|]. simpl. split_and!; try lia.
  intros t Hlt. simpl in *. apply Hm. simpl. lia.
Qed.

Lemma opcodes_of_tiles core la lb :
  chain 0 0 (core ++ [(la, lb, 0)]) → Forall (matches a b) core →
  tiles a b 0 0 la lb (opcodes_of (core ++ [(la, lb, 0)])).
Proof.
  intros Hc Hm. unfold opcodes_of.
  pose proof (emit_tiles (core ++ [(la, lb, 0)]) 0 0 [] 0 0 Hc) as Ht.
  rewrite chain_end_app in Ht. simpl in Ht. rewrite !Nat.add_0_r in Ht. apply Ht; [|done].
  apply Forall_app. split; [done|]. apply Forall_singleton. intros t Hlt. simpl in Hlt. lia.
Qed.

End Opcodes.

(** ** A sequence compared with itself *)

Section Identical.
Context {A : Type} `{Countable A}.
Variable self : SequenceMatcher A.
Hypothesis Hb2j : b2j_ok self.
Hypothesis Hab : a self = b self.
Hypothesis Hjunk : bjunk self = ∅.

Local Abbreviation d := (b self).
Local Abbreviation n := (length (b self)).
Local Abbreviation run := (run (b2j self) (b self)).
Local Abbreviation diag_row := (diag_row self).
Local Abbreviation diag_best := (diag_best self).

Lemma run_key i x :
  d !! i = Some x → is_Some (b2j self !! x) →
  run i = S (match i with 0 => 0 | S i' => run i' end).
Proof.
  intros Hx Hkey. destruct i; simpl; rewrite Hx, bool_decide_eq_true_2; done.
Qed.

Lemma run_not_key i x : d !! i = Some x → b2j self !! x = None → run i = 0.
Proof.
  intros Hx Hkey. destruct i; simpl; rewrite Hx, bool_decide_eq_false_2; try done;
    rewrite Hkey; by intros [? ?].
Qed.

Lemma scan_row_diag i x prev :
  d !! i = Some x → is_Some (b2j self !! x) → diag_row i prev →
  ∀ todo pre new best,
  pre ++ todo = positions x d →
  (∀ j k, new !! j = Some k → k ≤ run j ∧ k ≤ run i) →
  (i ∈ pre → new !! i = Some (run i) ∧ run i ≤ best.2) →
  diag_best i best →
  ∃ new' best', scan_row 0 n prev i todo new best = (new', best') ∧
    (∀ j k, new' !! j = Some k → k ≤ run j ∧ k ≤ run i) ∧
    new' !! i = Some (run i) ∧ run i ≤ best'.2 ∧ diag_best i best'.
Proof.
  intros Hx Hkey [Hoff Hdiag] todo.
  induction todo as [|j todo IH]; intros pre new best Hpos Hnew Hseen Hbest.
  { rewrite app_nil_r in Hpos. destruct Hseen as [? ?].
    { rewrite Hpos. by apply elem_of_positions. }
    exists new, best. by split_and!. }
  assert (d !! j = Some x) as Hj.
  { apply elem_of_positions. rewrite <- Hpos. apply elem_of_app. right. by left. }
  assert (j < n) as Hjn by (by apply lookup_lt_Some in Hj).
  assert (Forall (λ j', j' < j) pre) as Hpre.
  { pose proof (positions_sorted x d) as Hs. rewrite <- Hpos in Hs.
    apply Forall_forall. intros j' Hj'.
    eapply (StronglySorted_app_1_elem_of _ _ _ _ _ Hs); [done | by left]. }
  assert (Forall (λ j', j < j') todo) as Htodo.
  { pose proof (positions_sorted x d) as Hs. rewrite <- Hpos in Hs.
    apply StronglySorted_app_1_r in Hs. by apply StronglySorted_cons in Hs as [? _]. }
  simpl. rewrite ?(bool_decide_eq_false_2 (j < 0)) by lia.
  rewrite (bool_decide_eq_false_2 (n ≤ j)) by lia.
  set (k := j2lenget prev j + 1).
  pose proof (run_key i x Hx Hkey) as Hri. pose proof (run_key j x Hj Hkey) as Hrj.
  assert (k ≤ run j ∧ k ≤ run i ∧ (j = i → k = run i)) as (Hkj & Hki & Hkd).
  { unfold k. destruct j as [|j']; unfold j2lenget.
    { split_and!; [lia | lia |]. intros <-. lia. }
    destruct (prev !! j') as [k'|] eqn:Hk'; unfold from_option, id.
    - destruct (Hoff j' k' Hk') as (i' & -> & ? & ?). split_and!; [lia | lia |].
      intros [= ->]. destruct (lookup_lt_is_Some_2 d i') as [y Hy]; [lia|].
      destruct (b2j self !! y) as [l|] eqn:Hl.
      + rewrite (Hdiag i' y) in Hk' by eauto. injection Hk' as <-. lia.
      + rewrite (run_not_key i' y) in * by done. lia.
    - split_and!; [lia | lia |]. intros <-.
      destruct (lookup_lt_is_Some_2 d j') as [y Hy]; [lia|].
      destruct (b2j self !! y) as [l|] eqn:Hl.
      + rewrite (Hdiag j' y) in Hk' by eauto. done.
      + rewrite (run_not_key j' y) in * by done. lia. }
  set (best1 := if bool_decide (best.2 < k) then (i + 1 - k, j + 1 - k, k) else best).
  assert (diag_best i best1 ∧ best.2 ≤ best1.2 ∧ k ≤ best1.2) as (Hb1 & Hmono & Hk1).
  { unfold best1. destruct Hbest as [Hd Hruns]. case_bool_decide as Hlt; simpl.
    - assert (j = i) as ->.
      { destruct (decide (j < i)) as [Hji|Hji].
        { specialize (Hruns j Hji). lia. }
        destruct (decide (i < j)) as [Hij|Hij]; [|lia].
        destruct Hseen as [_ ?]; [|lia].
        assert (i ∈ pre ++ j :: todo) as Hi by (rewrite Hpos; by apply elem_of_positions).
        apply elem_of_app in Hi as [?|[->|Hi]%elem_of_cons]; [done | lia |].
        rewrite Forall_forall in Htodo. apply Htodo in Hi. lia. }
      split_and!; [split; [done|] | lia | lia].
      intros i' Hi'. specialize (Hruns i' Hi'). simpl. lia.
    - split_and!; [done | lia | lia]. }
  destruct (IH (pre ++ [j]) (<[j:=k]> new) best1) as (new' & best' & -> & ? & ? & ? & ?).
  - by rewrite <- app_assoc.
  - intros j' k0. rewrite lookup_insert. case_decide; [intros [= <-]; by subst | apply Hnew].
  - intros [Hi|Hi%list_elem_of_singleton]%elem_of_app.
    + destruct (Hseen Hi) as [Hn ?]. split; [|lia].
      rewrite lookup_insert_ne; [done|]. rewrite Forall_forall in Hpre.
      apply Hpre in Hi. lia.
    + subst. rewrite lookup_insert_eq. split; [f_equal; by apply Hkd | rewrite <- Hkd by done; lia].
  - done.
  - exists new', best'. by split_and!.
Qed.

Lemma scan_rows_diag :
  ∃ s, for_ (range 0 n) (λ i '(j2len, best),
         ai ← getitem (a self) i;
         Ok (scan_row 0 n j2len i (default [] (b2j self !! ai)) ∅ best))
       (∅, (0, 0, 0)) = Ok s ∧ diag_row n s.1 ∧ diag_best n s.2.
Proof.
  destruct (for_rule (λ done s, diag_row (length done) s.1 ∧ diag_best (length done) s.2)
              (λ i '(j2len, best),
                 ai ← getitem (a self) i;
                 Ok (scan_row 0 n j2len i (default [] (b2j self !! ai)) ∅ best))
              (range 0 n) [] (∅, (0, 0, 0))) as (s & Hs & Hrow & Hbest).
  - split; [split|split]; simpl; try done; intros; lia.
  - intros pre i post [j2len best] Heq%range_split _ [Hrow Hbest].
    destruct Heq as [-> Hi]. simpl in *.
    destruct (getitem_lt (a self) (length pre)) as (x & Hx & ->); [rewrite Hab; lia|].
    rewrite Hab in Hx. simpl. rewrite length_app. simpl.
    replace (length pre + 1) with (S (length pre)) by lia.
    destruct (b2j self !! x) as [js|] eqn:Hjs; simpl.
    + assert (is_Some (b2j self !! x)) as Hkey by eauto.
      assert ([] ++ js = positions x d) as Hpos by (by apply Hb2j).
      assert (∀ j k, (∅ : gmap nat nat) !! j = Some k →
                k ≤ run j ∧ k ≤ run (length pre)) as Hnew0.
      { intros j k Hk. by rewrite lookup_empty in Hk. }
      assert (length pre ∈ @nil nat → (∅ : gmap nat nat) !! length pre
                = Some (run (length pre)) ∧ run (length pre) ≤ best.2) as Hseen0.
      { intros Hin. by apply elem_of_nil in Hin. }
      destruct (scan_row_diag (length pre) x j2len Hx Hkey Hrow js [] ∅ best
                  Hpos Hnew0 Hseen0 Hbest)
        as (new' & best' & -> & Hnew & Hd & Hr & [Hdiag Hruns]).
      eexists. split; [done|]. simpl. split; [split|split].
      * intros j k Hk. exists (length pre). split; [done | by apply Hnew].
      * intros i' y [= <-] Hy _. assert (y = x) as -> by congruence. done.
      * done.
      * intros i' Hi'. destruct (decide (i' = length pre)) as [->|?]; [done|].
        apply Hruns. lia.
    + eexists. split; [done|]. simpl. destruct Hbest as [Hdiag Hruns]. split; [split|split].
      * intros j k Hk. by rewrite lookup_empty in Hk.
      * intros i' y [= <-] Hy [l Hl]. congruence.
      * done.
      * intros i' Hi'. destruct (decide (i' = length pre)) as [->|?].
        -- rewrite (run_not_key _ x) by done. lia.
        -- apply Hruns. lia.
  - assert (length ([] ++ range 0 n) = n) as Hlen.
    { simpl. unfold range. rewrite length_seq. lia. }
    rewrite Hlen in Hrow, Hbest. by exists s.
Qed.

(** The longest match of a sequence with itself is the whole of it. *)
Lemma find_longest_match_same : find_longest_match self 0 n 0 n = Ok (0, 0, n).
Proof.
  assert (0 ≤ n ≤ length (a self)) as Ha by (rewrite Hab; lia).
  assert (0 ≤ n ≤ n) as Hb by lia.
  unfold find_longest_match.
  destruct scan_rows_diag as ([j2len m0] & Hfor & _ & [Hd0 _]).
  destruct (scan_rows_spec self Hb2j 0 n 0 n Ha Hb) as (s' & Hfor' & _ & Hg0 & _).
  rewrite Hfor in Hfor'. injection Hfor' as <-. rewrite Hfor. simpl in *.
  destruct (grow_left_rule self 0 n 0 n Ha Hb (λ m, m.1.1 = m.1.2) false) with (m := m0)
    as ([[i1 j1] k1] & -> & Hg1 & Hq1 & Hc1); [simpl; intros; lia | done | done |].
  simpl in *. subst j1.
  assert (i1 = 0) as ->.
  { destruct Hg1 as [Hbox _]. unfold in_box in Hbox. simpl in Hbox.
    destruct (decide (i1 = 0)) as [|Hne]; [done|]. exfalso.
    rewrite !bool_decide_eq_true_2 in Hc1 by lia. simpl in Hc1.
    destruct (getitem_lt (b self) (i1 - 1)) as (y & Hy & Hgy); [lia|].
    rewrite Hab, Hgy, Hjunk in Hc1. simpl in Hc1.
    rewrite (bool_decide_eq_false_2 (y ∈ ∅)) in Hc1 by set_solver.
    simpl in Hc1. by rewrite bool_decide_eq_true_2 in Hc1. }
  destruct (grow_right_rule self 0 n 0 n Ha Hb (λ m, m.1.1 = 0 ∧ m.1.2 = 0) false)
    with (m := (0, 0, k1)) as ([[i2 j2] k2] & -> & Hg2 & [Hi2 Hj2] & Hc2);
    [simpl; intros; lia | done | done |].
  simpl in *. subst i2 j2.
  assert (k2 = n) as ->.
  { destruct Hg2 as [Hbox _]. unfold in_box in Hbox. simpl in Hbox.
    destruct (decide (k2 = n)) as [|Hne]; [done|]. exfalso.
    rewrite !bool_decide_eq_true_2 in Hc2 by lia. simpl in Hc2.
    destruct (getitem_lt (b self) k2) as (y & Hy & Hgy); [lia|].
    rewrite Hab, Hgy, Hjunk in Hc2. simpl in Hc2.
    rewrite (bool_decide_eq_false_2 (y ∈ ∅)) in Hc2 by set_solver.
    simpl in Hc2. by rewrite bool_decide_eq_true_2 in Hc2. }
  destruct (grow_left_rule self 0 n 0 n Ha Hb (λ m, m = (0, 0, n)) true)
    with (m := (0, 0, n)) as (m3 & -> & _ & -> & _);
    [intros ? ? ? ? [= -> -> ->]; lia | done | done |].
  simpl.
  destruct (grow_right_rule self 0 n 0 n Ha Hb (λ m, m = (0, 0, n)) true)
    with (m := (0, 0, n)) as (m4 & -> & _ & -> & _);
    [intros ? ? ? ? [= -> -> ->]; lia | done | done |].
  done.
Qed.

End Identical.

(** ** [ratio] *)

Lemma Zpos_of_nat n : n ≠ 0 → Z.pos (Pos.of_nat n) = Z.of_nat n.
Proof. intros Hn. lia. Qed.

Lemma calculate_ratio_one matches length :
  (_calculate_ratio matches length == 1)%Q ↔ length = 0 ∨ 2 * matches = length.
Proof.
  unfold _calculate_ratio. case_bool_decide as Hl.
  - unfold Qeq. simpl. rewrite Zpos_of_nat by done. lia.
  - split; [lia | reflexivity].
Qed.

Lemma calculate_ratio_zero matches length :
  (_calculate_ratio matches length == 0)%Q ↔ length ≠ 0 ∧ matches = 0.
Proof.
  unfold _calculate_ratio. case_bool_decide as Hl.
  - unfold Qeq. simpl. lia.
  - split; [intros Heq; by apply Q_apart_0_1 in Heq | lia].
Qed.

Lemma while_step {S} fuel (cond : S → result bool) (body : S → result S) s :
  while (Datatypes.S fuel) cond body s
  = c ← cond s; if c : bool then s' ← body s; while fuel cond body s' else Ok s.
Proof. done. Qed.

Lemma while_stop {S} fuel (cond : S → result bool) (body : S → result S) s :
  cond s = Ok false → while fuel cond body s = Ok s.
Proof. intros Hc. destruct fuel; simpl; by rewrite Hc. Qed.

Section Ratio.
Context {A : Type} `{Countable A}.
Implicit Types x y : list A.

(** The blocks of a sequence compared with itself: the whole of it, then
    the closing block. *)
Lemma compute_matching_blocks_same (self : SequenceMatcher A) :
  b2j_ok self → a self = b self → bjunk self = ∅ →
  compute_matching_blocks self
  = Ok (if bool_decide (length (b self) ≠ 0)
        then [(0, 0, length (b self)); (length (b self), length (b self), 0)]
        else [(0, 0, 0)]).
Proof.
  intros Hb2j Hab Hjunk. unfold compute_matching_blocks. cbv zeta. rewrite Hab.
  set (n := length (b self)).
  replace (2 * n + 1) with (S (2 * n)) by lia. rewrite while_step. simpl.
  unfold split_block. simpl.
  pose proof (find_longest_match_same self Hb2j Hab Hjunk) as Hflm. fold n in Hflm.
  rewrite Hflm. simpl.
  case_bool_decide as Hn; simpl.
  - rewrite (bool_decide_eq_false_2 (n < n)) by lia. simpl.
    change (reverse []) with (@nil box).
    rewrite while_stop by done. simpl.
    rewrite bool_decide_eq_true_2 by done. done.
  - change (reverse []) with (@nil box). rewrite while_stop by done. simpl.
    assert (n = 0) as -> by lia. done.
Qed.

Lemma new_meet x y c :
  length y < 200 → c ∈ x → c ∈ y → meet (new None x y true).
Proof.
  intros Hlen [i Hi]%list_elem_of_lookup [j Hj]%list_elem_of_lookup.
  exists i, j, c. split_and!; [done | done |].
  rewrite (new_b2j_small x y true c) by (done || by eapply list_elem_of_lookup_2). eauto.
Qed.

Lemma block_ok_common (self : SequenceMatcher A) m :
  block_ok self m → ∃ c, c ∈ a self ∧ c ∈ b self.
Proof.
  intros (Hk & _ & Hm). destruct (Hm 0) as (c & Ha & Hb); [lia|].
  exists c. split; by eapply list_elem_of_lookup_2.
Qed.

(** What [SequenceMatcher(None, x, y)] finds: [core] are the blocks before
    the closing one. *)
Lemma matching_blocks_new x y :
  ∃ core,
    compute_matching_blocks (new None x y true) = Ok (core ++ [(length x, length y, 0)]) ∧
    Forall (matches x y) core ∧
    chain 0 0 (core ++ [(length x, length y, 0)]) ∧
    (disjoint x y → matched core = 0) ∧
    (length y < 200 → matched core = 0 → disjoint x y) ∧
    (x = y → core = if bool_decide (length x ≠ 0) then [(0, 0, length x)] else []).
Proof.
  destruct (compute_matching_blocks_spec (new None x y true) (new_b2j_ok None x y true))
    as (found & core & Hcore & Hok & Hmeet & Hsum & Hm & Hc).
  exists core. split_and!; try done.
  - intros Hdis. rewrite Hsum. destruct found as [|m found]; [done|].
    apply Forall_cons in Hok as [(c & Hx & Hy)%block_ok_common _]. by apply Hdis in Hx.
  - intros Hlen Hzero c Hx Hy. rewrite Hsum in Hzero.
    destruct found as [|m found]; [by apply Hmeet; [eapply new_meet|]|].
    apply Forall_cons in Hok as [(Hk & _) _]. rewrite matched_cons in Hzero. lia.
  - intros <-. rewrite (compute_matching_blocks_same (new None x x true)) in Hcore;
      [|apply new_b2j_ok | done | done]. simpl in Hcore.
    case_bool_decide; injection Hcore as Hcore.
    + by apply (app_inj_2 [_] core [_] [_]) in Hcore as [<- _].
    + destruct core as [|? [|? ?]]; simplify_eq/=; done.
Qed.

End Ratio.

(** ** The sequence aligner: claims C1, C5, C6, C9 *)


Section Aligner.
Context {A : Type} `{Countable A}.
Implicit Types x y : list A.

(** The object that [SequenceMatcher(None, x, y)] becomes once its blocks
    are computed. *)
Lemma get_matching_blocks_new x y :
  ∃ core self',
    get_matching_blocks (new None x y true)
      = Ok (core ++ [(length x, length y, 0)], self') ∧
    compute_matching_blocks (new None x y true)
      = Ok (core ++ [(length x, length y, 0)]) ∧
    a self' = x ∧ b self' = y ∧
    matching_blocks self' = Some (core ++ [(length x, length y, 0)]) ∧
    opcodes self' = None.
Proof.
  destruct (matching_blocks_new x y) as (core & Hcore & _).
  unfold get_matching_blocks. simpl matching_blocks. cbv iota.
  rewrite Hcore. simpl. eexists _, _. split_and!; done.
Qed.

Lemma ratio_new x y :
  ∃ core self',
    compute_matching_blocks (new None x y true)
      = Ok (core ++ [(length x, length y, 0)]) ∧
    ratio (new None x y true)
      = Ok (_calculate_ratio (matched core) (length x + length y), self') ∧
    ratio self' = Ok (_calculate_ratio (matched core) (length x + length y), self') ∧
    a self' = x ∧ b self' = y.
Proof.
  destruct (get_matching_blocks_new x y) as (core & self' & Hg & Hc & Ha & Hb & Hm & _).
  exists core, self'. unfold ratio. rewrite Hg. simpl.
  unfold get_matching_blocks. rewrite Hm. simpl. rewrite Ha, Hb.
  fold (matched (core ++ [(length x, length y, 0)])).
  rewrite matched_app, matched_one. simpl. rewrite Nat.add_0_r. done.
Qed.

Lemma similarity_new x y :
  ∃ core,
    compute_matching_blocks (new None x y true)
      = Ok (core ++ [(length x, length y, 0)]) ∧
    similarity x y
      = Ok (_calculate_ratio (matched core) (length x + length y) * 100)%Q.
Proof.
  destruct (ratio_new x y) as (core & self' & Hc & Hr & _).
  exists core. split; [done|]. unfold similarity. by rewrite Hr.
Qed.

Lemma matched_full x y core :
  chain 0 0 (core ++ [(length x, length y, 0)]) → Forall (matches x y) core →
  2 * matched core = length x + length y → x = y.
Proof.
  intros Hc Hm Hsum. pose proof (chain_matched _ _ _ _ _ Hc) as [Hx Hy]. simpl in *.
  apply list_eq. intros t. destruct (decide (t < matched core)) as [Hlt|Hge].
  - destruct (chain_full x y _ _ _ 0 0 Hc Hm) with (t := t) as (c & Hxc & Hyc);
      [lia | lia | done |]. simpl in *. congruence.
  - rewrite !lookup_ge_None_2 by lia. done.
Qed.

End Aligner.

Section AlignerClaims.
Context {A : Type} `{Countable A}.
Implicit Types x y : list A.


Lemma get_opcodes_new x y :
  ∃ core self',
    compute_matching_blocks (new None x y true)
      = Ok (core ++ [(length x, length y, 0)]) ∧
    get_opcodes (new None x y true)
      = Ok (opcodes_of (core ++ [(length x, length y, 0)]), self') ∧
    a self' = x ∧ b self' = y ∧
    opcodes self' = Some (opcodes_of (core ++ [(length x, length y, 0)])).
Proof.
  destruct (get_matching_blocks_new x y) as (core & self' & Hg & Hc & Ha & Hb & Hm & Ho).
  exists core. unfold get_opcodes. simpl opcodes. cbv iota. rewrite Hg. simpl.
  eexists. split_and!; done.
Qed.

(** The ratio of [SequenceMatcher(None, x, y)] at the two ends of the
    scale. *)
Lemma ratio_extremes x y :
  ∃ core s1,
    compute_matching_blocks (new None x y true)
      = Ok (core ++ [(length x, length y, 0)]) ∧
    ratio (new None x y true)
      = Ok (_calculate_ratio (matched core) (length x + length y), s1) ∧
    let r := _calculate_ratio (matched core) (length x + length y) in
    ((r == 1)%Q ↔ x = y) ∧
    ((r == 0)%Q ↔ matched core = 0 ∧ ¬ (x = [] ∧ y = [])) ∧
    (disjoint x y → ¬ (x = [] ∧ y = []) → (r == 0)%Q) ∧
    (length y < 200 → (r == 0)%Q → disjoint x y).
Proof.
  destruct (matching_blocks_new x y) as (core & Hcore & Hm & Hc & Hdis & Hsmall & Hsame).
  destruct (ratio_new x y) as (core2 & s1 & Hcore2 & Hr & _).
  rewrite Hcore in Hcore2. injection Hcore2 as Heq2. apply app_inv_tail in Heq2 as <-.
  exists core, s1. split; [done|]. split; [done|]. cbv zeta.
  assert (x = [] ∧ y = [] ↔ length x + length y = 0) as Hempty.
  { split; [by intros [-> ->]|]. intros Hl.
    split; apply length_zero_iff_nil; lia. }
  split_and!.
  - rewrite calculate_ratio_one. split.
    + intros [Hl|Hl]; [apply Hempty in Hl as [-> ->]; done|]. by eapply matched_full.
    + intros <-. rewrite (Hsame eq_refl). case_bool_decide as Hn.
      * right. rewrite matched_one. simpl. lia.
      * left. lia.
  - rewrite calculate_ratio_zero, Hempty. tauto.
  - intros Hd Hne. apply calculate_ratio_zero. rewrite <- Hempty. auto.
  - intros Hlen [_ Hz]%calculate_ratio_zero. by apply Hsmall.
Qed.


(** C5, as amended.  The two ratios [ratio(x, y)] and [ratio(y, x)] are over
    the same total length and agree at the ends of the scale: one is 1
    exactly when the other is, they are equal when the sequences have no
    element in common, and below 200 elements one is 0 exactly when the
    other is.  In between, the number of matched elements, and the ratio
    with it, may depend on the order. *)
Theorem C5_ratio_symmetric_at_extremes x y :
  ∃ m1 m2 s1 s2,
    ratio (new None x y true) = Ok (_calculate_ratio m1 (length x + length y), s1) ∧
    ratio (new None y x true) = Ok (_calculate_ratio m2 (length x + length y), s2) ∧
    let r1 := _calculate_ratio m1 (length x + length y) in
    let r2 := _calculate_ratio m2 (length x + length y) in
    ((r1 == 1)%Q ↔ (r2 == 1)%Q) ∧
    (disjoint x y → (r1 == r2)%Q) ∧
    (length x < 200 → length y < 200 → ((r1 == 0)%Q ↔ (r2 == 0)%Q)) ∧
    (m1 = m2 → r1 = r2).
Proof.
  destruct (ratio_extremes x y) as (c1 & s1 & _ & Hr1 & H11 & H10 & Hd1 & Hs1).
  destruct (ratio_extremes y x) as (c2 & s2 & _ & Hr2 & H21 & H20 & Hd2 & Hs2).
  exists (matched c1), (matched c2), s1, s2. rewrite (Nat.add_comm (length y)) in *.
  simpl in *.
  assert (disjoint x y ↔ disjoint y x) as Hsym.
  { unfold disjoint. split; intros Hd c Hc1 Hc2; by apply (Hd c Hc2). }
  split; [done|]. split; [done|]. cbv zeta. split_and!; try done.
  - rewrite H11, H21. split; by intros ->.
  - intros Hd. destruct (decide (x = [] ∧ y = [])) as [[-> ->]|Hne].
    + reflexivity.
    + rewrite Hd1, Hd2; [reflexivity | by apply Hsym | tauto | done | done].
  - intros Hx Hy. split; intros Hz.
    + apply Hd2; [apply Hsym; by apply Hs1 | apply H10 in Hz; tauto].
    + apply Hd1; [apply Hsym; by apply Hs2 | apply H20 in Hz; tauto].
  - by intros ->.
Qed.

(** C9.  Calling [ratio()] or [get_opcodes()] again on the same matcher
    returns the same value and leaves the matcher as it is: the only state
    kept between calls is the cache of blocks and opcodes, and it holds
    what a fresh computation gives.  The two sequences are not changed. *)
Theorem C9_calls_repeat x y :
  ∃ r ops s1 s2,
    ratio (new None x y true) = Ok (r, s1) ∧
    ratio s1 = Ok (r, s1) ∧
    get_opcodes (new None x y true) = Ok (ops, s2) ∧
    get_opcodes s2 = Ok (ops, s2) ∧
    get_opcodes s1 = Ok (ops, s2) ∧
    ratio s2 = Ok (r, s2) ∧
    a s1 = x ∧ b s1 = y ∧ a s2 = x ∧ b s2 = y ∧
    similarity x y = Ok (r * 100)%Q.
Proof.
  destruct (get_matching_blocks_new x y) as (core & s1 & Hg & Hc & Ha & Hb & Hm & Hno).
  set (blocks := core ++ [(length x, length y, 0)]) in *.
  set (r := _calculate_ratio (matched blocks) (length x + length y)).
  assert (ratio (new None x y true) = Ok (r, s1)) as Hr.
  { unfold ratio. rewrite Hg. simpl. by rewrite Ha, Hb. }
  assert (ratio s1 = Ok (r, s1)) as Hr1.
  { unfold ratio, get_matching_blocks. rewrite Hm. simpl. by rewrite Ha, Hb. }
  set (s2 := {| isjunk := isjunk s1; a := a s1; b := b s1; autojunk := autojunk s1;
                b2j := b2j s1; bjunk := bjunk s1; bpopular := bpopular s1;
                matching_blocks := matching_blocks s1;
                opcodes := Some (opcodes_of blocks) |}).
  exists r, (opcodes_of blocks), s1, s2. split_and!; try done.
  - unfold get_opcodes. simpl opcodes. cbv iota. rewrite Hg. simpl. done.
  - unfold get_opcodes, get_matching_blocks. rewrite Hno, Hm. simpl. done.
  - unfold ratio, get_matching_blocks. simpl. rewrite Hm. simpl. by rewrite Ha, Hb.
  - unfold similarity. by rewrite Hr.
Qed.

End AlignerClaims.

(** C6, as amended.  The scripts compare the characters of the two texts,
    not their lines: two texts with no character in common, not both
    empty, have similarity 0. *)
Theorem C6_no_common_character (precision docling : str) :
  disjoint precision docling → ¬ (precision = [] ∧ docling = []) →
  ∃ sim, test_precision.sim precision docling = Ok sim ∧ (sim == 0)%Q.
Proof.
  intros Hd Hne.
  destruct (ratio_extremes precision docling) as (core & s1 & _ & Hr & _ & _ & Hzero & _).
  unfold test_precision.sim, similarity. rewrite Hr. simpl.
  eexists. split; [done|]. rewrite (Hzero Hd Hne). reflexivity.
Qed.

(** The texts ["ab"] and ["cd"] have no character in common. *)
Lemma C6_no_common_character_witness :
  disjoint (lit "ab") (lit "cd") ∧ ¬ (lit "ab" = [] ∧ lit "cd" = []) ∧
  ∃ sim, test_precision.sim (lit "ab") (lit "cd") = Ok sim ∧ (sim == 0)%Q.
Proof.
  assert (disjoint (lit "ab") (lit "cd")) as Hd.
  { apply (bool_decide_unpack _). vm_compute. exact I. }
  assert (¬ (lit "ab" = [] ∧ lit "cd" = [])) as Hne.
  { intros [Hx _]. vm_compute in Hx. discriminate Hx. }
  split; [exact Hd|]. split; [exact Hne|].
  exact (C6_no_common_character (lit "ab") (lit "cd") Hd Hne).
Defined.



(** C5 as stated fails: ["tide"] against ["diet"] matches one character,
    ["diet"] against ["tide"] two. *)
Lemma C5_ratio_not_symmetric :
  fst <$> ratio (new None (lit "tide") (lit "diet") true) = Ok (2 # 8)%Q ∧
  fst <$> ratio (new None (lit "diet") (lit "tide") true) = Ok (4 # 8)%Q ∧
  ¬ (2 # 8 == 4 # 8)%Q.
Proof.
  split_and!; [vm_compute; reflexivity | vm_compute; reflexivity | by intros Heq].
Qed.

(** C6 as stated fails: the texts ["ab"] and ["ac"] are one line each and
    the two lines differ, yet the similarity is 50. *)
Lemma C6_no_common_line_ratio_not_zero :
  let precision := lit "ab" in
  let docling := lit "ac" in
  readlines precision = [lit "ab"] ∧ readlines docling = [lit "ac"] ∧
  disjoint (readlines precision) (readlines docling) ∧
  test_precision.sim precision docling = Ok (200 # 4)%Q ∧ ¬ (200 # 4 == 0)%Q.
Proof.
  split_and!; try (vm_compute; reflexivity).
  - apply (bool_decide_unpack _). vm_compute. exact I.
  - by intros Heq.
Qed.

(** ** Substrings *)

(** [p in s] holds when [s] has [p] somewhere in it. *)
Lemma contains_spec p s :
  contains p s = true ↔ ∃ pre post, s = pre ++ p ++ post.
Proof.
  induction s as [|c s IH]; simpl.
  - rewrite orb_false_r. unfold startswith. rewrite bool_decide_eq_true. split.
    + intros [post Hp]. exists [], post. done.
    + intros (pre & post & Heq). symmetry in Heq.
      apply app_eq_nil in Heq as [-> [-> _]%app_eq_nil]. by exists [].
  - rewrite orb_true_iff, IH. unfold startswith. rewrite bool_decide_eq_true. split.
    + intros [[post Hp]|(pre & post & ->)].
      * exists [], post. done.
      * exists (c :: pre), post. done.
    + intros ([|c' pre] & post & Heq).
      * left. exists post. done.
      * right. injection Heq as -> ->. eauto.
Qed.

Lemma startswith_spec s p : startswith s p = true ↔ ∃ rest, s = p ++ rest.
Proof. unfold startswith. by rewrite bool_decide_eq_true. Qed.

(** ** The counters of [detailed_diff.py]: claims C3 and C10 *)

Section Counters.
Import detailed_diff.

Lemma count_cons p x issues :
  count p (x :: issues) = (if p x then 1 else 0) + count p issues.
Proof. unfold count. simpl. by destruct (p x). Qed.

Lemma count_app p l1 l2 : count p (l1 ++ l2) = count p l1 + count p l2.
Proof.
  induction l1 as [|x l1 IH]; [done|]. simpl. rewrite !count_cons, IH. lia.
Qed.

Lemma count_le p issues : count p issues ≤ length issues.
Proof.
  induction issues as [|x l IH]; [done|]. rewrite count_cons. simpl.
  destruct (p x); lia.
Qed.

(** Counting those that pass one test or the other counts twice those
    that pass both. *)
Lemma count_or p q issues :
  count (λ x, p x || q x) issues + count (λ x, p x && q x) issues
  = count p issues + count q issues.
Proof.
  induction issues as [|x l IH]; [done|]. rewrite !count_cons.
  destruct (p x), (q x); simpl; lia.
Qed.

Lemma count_sum (p q r : issue → bool) issues :
  (∀ x, (if p x then 1 else 0) + (if q x then 1 else 0) + (if r x then 1 else 0) ≤ 1) →
  count p issues + count q issues + count r issues ≤ length issues.
Proof.
  intros Hex. induction issues as [|x l IH]; [done|]. rewrite !count_cons. simpl.
  specialize (Hex x). lia.
Qed.

Lemma structural_buckets_le x : structural_buckets x ≤ 1.
Proof.
  destruct x as [k [|c s]].
  - destruct k; vm_compute; lia.
  - unfold structural_buckets, is_missing_break, is_extra_break. simpl.
    rewrite !andb_false_r. simpl. case_match; lia.
Qed.

(** A counter is the number of the issues that pass its test. *)
Lemma count_filter (p : issue → bool) (P : issue → Prop) `{!∀ x, Decision (P x)} issues :
  (∀ x, p x = true ↔ P x) → count p issues = length (filter P issues).
Proof.
  intros Hp. induction issues as [|x l IH]; [done|].
  rewrite count_cons, filter_cons, IH. destruct (Hp x) as [Hp1 Hp2].
  destruct (p x), (decide (P x)) as [HP|HP]; simpl; try lia.
  - destruct HP. by apply Hp1.
  - by specialize (Hp2 HP).
Qed.

Lemma is_missing_break_spec x :
  is_missing_break x = true ↔ x.1 = missing ∧ x.2 = lit "".
Proof. unfold is_missing_break. by rewrite andb_true_iff, !bool_decide_eq_true. Qed.

Lemma is_extra_break_spec x :
  is_extra_break x = true ↔ x.1 = extra ∧ x.2 = lit "".
Proof. unfold is_extra_break. by rewrite andb_true_iff, !bool_decide_eq_true. Qed.

Lemma is_missing_header_spec x :
  is_missing_header x = true ↔ x.1 = missing ∧ lit "##" `prefix_of` x.2.
Proof.
  unfold is_missing_header, startswith.
  by rewrite andb_true_iff, !bool_decide_eq_true.
Qed.

Lemma is_wrong_join_spec x :
  is_wrong_join x = true
  ↔ (x.1 = extra ∧ contains (lit "Abstract") x.2 = true)
    ∨ contains (lit "Introduction") x.2 = true.
Proof.
  unfold is_wrong_join.
  by rewrite orb_true_iff, andb_true_iff, bool_decide_eq_true.
Qed.

(** C3, as amended.  The script has four counters and each tests every
    issue on its own.  The missing-blank-line counter takes the missing
    issues whose content is empty, the extra-blank-line counter the extra
    issues whose content is empty, the missing-header counter the missing
    issues whose content starts with [##], and the wrong-joins counter
    the extra issues with [Abstract] in their content and the issues of
    either kind with [Introduction] in it; each counter is the number of
    the issues that its test takes.  So a blank issue is counted once, by
    the blank counter of its kind; a missing [## ...] line is a missing
    header and a missing [# Title] line is not.  Missing blank line,
    extra blank line and missing header exclude one another, so at most
    one of the three takes an issue and together they count at most the
    issues there are.  There is no default counter, an issue that passes
    no test is counted nowhere, and nothing keeps wrong joins and missing
    headers apart: a missing heading with [Introduction] in it is counted
    by both. *)
Theorem C3_counters_independent (issues : list issue) :
  (∀ x, is_missing_break x = true ↔ x.1 = missing ∧ x.2 = lit "") ∧
  (∀ x, is_extra_break x = true ↔ x.1 = extra ∧ x.2 = lit "") ∧
  (∀ x, is_missing_header x = true ↔ x.1 = missing ∧ ∃ rest, x.2 = lit "##" ++ rest) ∧
  (∀ x, is_wrong_join x = true
        ↔ (x.1 = extra ∧ ∃ pre post, x.2 = pre ++ lit "Abstract" ++ post)
          ∨ ∃ pre post, x.2 = pre ++ lit "Introduction" ++ post) ∧
  missing_breaks issues
    = length (filter (λ x : issue, x.1 = missing ∧ x.2 = lit "") issues) ∧
  extra_breaks issues
    = length (filter (λ x : issue, x.1 = extra ∧ x.2 = lit "") issues) ∧
  missing_headers issues
    = length (filter (λ x : issue, x.1 = missing ∧ lit "##" `prefix_of` x.2) issues) ∧
  wrong_joins issues
    = length (filter (λ x : issue,
                        (x.1 = extra ∧ contains (lit "Abstract") x.2 = true)
                        ∨ contains (lit "Introduction") x.2 = true) issues) ∧
  (is_missing_break (missing, lit "") = true ∧ is_extra_break (extra, lit "") = true ∧
   ∀ k, buckets (k, lit "") = 1) ∧
  (∀ rest, is_missing_header (missing, lit "##" ++ rest) = true) ∧
  (is_missing_header (missing, lit "# Title") = false ∧
   buckets (missing, lit "# Title") = 0) ∧
  (∀ rest, contains (lit "Introduction") rest = true →
     buckets (missing, lit "##" ++ rest) = 2) ∧
  (∀ x, x.2 ≠ lit "" → ¬ lit "##" `prefix_of` x.2 →
     contains (lit "Abstract") x.2 = false →
     contains (lit "Introduction") x.2 = false → buckets x = 0) ∧
  (∀ x, structural_buckets x ≤ 1) ∧
  (∀ x, buckets x ≤ 2) ∧
  (∀ x, x.2 = lit "" → is_wrong_join x = false) ∧
  missing_breaks issues + extra_breaks issues + missing_headers issues ≤ length issues ∧
  wrong_joins issues ≤ length issues.
Proof.
  split_and!.
  - apply is_missing_break_spec.
  - apply is_extra_break_spec.
  - intros x. by rewrite is_missing_header_spec.
  - intros x. by rewrite is_wrong_join_spec, !contains_spec.
  - apply count_filter, is_missing_break_spec.
  - apply count_filter, is_extra_break_spec.
  - apply count_filter, is_missing_header_spec.
  - apply count_filter, is_wrong_join_spec.
  - done.
  - done.
  - by intros [].
  - intros rest. apply is_missing_header_spec. split; [done|]. by exists rest.
  - done.
  - done.
  - intros rest Hrest. unfold buckets, structural_buckets.
    assert (is_missing_header (missing, lit "##" ++ rest) = true) as ->.
    { apply is_missing_header_spec. split; [done|]. by exists rest. }
    assert (is_wrong_join (missing, lit "##" ++ rest) = true) as ->.
    { apply is_wrong_join_spec. right. cbn [snd].
      apply contains_spec in Hrest as (pre & post & ->).
      apply contains_spec. by exists (lit "##" ++ pre), post. }
    done.
  - intros x Hne Hhead Habs Hintro. unfold buckets, structural_buckets.
    assert (is_missing_break x = false) as ->.
    { apply not_true_is_false. by intros [_ ?]%is_missing_break_spec. }
    assert (is_extra_break x = false) as ->.
    { apply not_true_is_false. by intros [_ ?]%is_extra_break_spec. }
    assert (is_missing_header x = false) as ->.
    { apply not_true_is_false. by intros [_ ?]%is_missing_header_spec. }
    assert (is_wrong_join x = false) as ->.
    { apply not_true_is_false. intros [[_ ?]|?]%is_wrong_join_spec; congruence. }
    done.
  - apply structural_buckets_le.
  - intros x. unfold buckets. pose proof (structural_buckets_le x).
    destruct (is_wrong_join x); lia.
  - intros [k content] Hc. simpl in Hc. subst content. by destruct k.
  - apply count_sum. intros x. apply structural_buckets_le.
  - apply count_le.
Qed.

(** C10, as amended.  An issue enters the wrong-joins count when it is an
    extra line with ['Abstract'] or a line of either kind with
    ['Introduction'], once even when it is both: the count is the sum of
    the two numbers less the issues that are both.  A missing line with
    ['Introduction'] adds one to it. *)
Theorem C10_wrong_joins_count (issues : list issue) :
  wrong_joins issues + count (λ x, is_extra_abstract x && has_introduction x) issues
  = count is_extra_abstract issues + count has_introduction issues ∧
  (∀ content, contains (lit "Introduction") content = true →
     wrong_joins (issues ++ [(missing, content)]) = wrong_joins issues + 1).
Proof.
  split.
  - apply (count_or is_extra_abstract has_introduction).
  - intros content Hc. unfold wrong_joins. rewrite count_app, count_cons.
    unfold is_wrong_join at 2. cbn [fst snd]. rewrite Hc, orb_true_r. done.
Qed.

End Counters.

(** C10 as stated fails: an extra line with both words is one wrong join,
    where the two numbers add up to two. *)
Lemma C10_both_words_counted_once :
  let issues := [(detailed_diff.extra, lit "Abstract Introduction")] in
  detailed_diff.wrong_joins issues = 1 ∧
  detailed_diff.count is_extra_abstract issues
  + detailed_diff.count has_introduction issues = 2.
Proof. split; vm_compute; reflexivity. Qed.

(** C3 as stated fails: a missing [## Introduction] line is counted as a
    missing header and as a wrong join, and a changed line of text is
    counted nowhere. *)
Lemma C3_two_buckets_or_none :
  let docling := lit "## Introduction" ++ [nl] ++ lit "same" ++ [nl] ++ lit "old" ++ [nl] in
  let precision := lit "same" ++ [nl] ++ lit "new" ++ [nl] in
  detailed_diff.issues (readlines docling) (readlines precision)
  = Ok [(detailed_diff.missing, lit "## Introduction");
        (detailed_diff.missing, lit "old"); (detailed_diff.extra, lit "new")] ∧
  buckets (detailed_diff.missing, lit "## Introduction") = 2 ∧
  buckets (detailed_diff.missing, lit "old") = 0 ∧
  buckets (detailed_diff.extra, lit "new") = 0.
Proof. split_and!; vm_compute; reflexivity. Qed.

(** ** The region of [detailed_diff.py]: claim C7 *)

Section Region.
Import detailed_diff.

(** [find_from] returns the index of the first line with the pattern,
    counted from [i], and 0 when no line has it. *)
Lemma find_from_none lines p : ∀ i,
  Forall (λ line, contains p line = false) lines → find_from i lines p = 0.
Proof.
  induction lines as [|line lines IH]; intros i Hl; simpl; [done|].
  apply Forall_cons in Hl as [-> Hl]. by apply IH.
Qed.

Lemma find_from_first pre line post p : ∀ i,
  Forall (λ line, contains p line = false) pre → contains p line = true →
  find_from i (pre ++ line :: post) p = i + length pre.
Proof.
  induction pre as [|l pre IH]; intros i Hpre Hline; simpl.
  - rewrite Hline. lia.
  - apply Forall_cons in Hpre as [-> Hpre]. rewrite IH by done. lia.
Qed.

(** C7, as amended.  [find_section] gives the index of the first line that
    has the marker, and 0 when no line has it; 0 is also what it gives for
    a marker on the first line.  The abstract is cut out only when the
    four indices are not 0, as the lines from the start marker up to the
    end marker; when one of the markers is not found in one of the files,
    or is on its first line, no region is cut out and no similarity is
    computed for it. *)
Theorem C7_region_only_with_markers (docling_lines precision_lines : list str) :
  (∀ lines marker,
     Forall (λ line, contains marker line = false) lines →
     find_section lines marker = 0) ∧
  (∀ pre line post marker,
     Forall (λ line, contains marker line = false) pre →
     contains marker line = true →
     find_section (pre ++ line :: post) marker = length pre) ∧
  let abs_start_d := find_section docling_lines (lit "## Abstract") in
  let abs_start_p := find_section precision_lines (lit "## Abstract") in
  let intro_start_d := find_section docling_lines (lit "## 1 Introduction") in
  let intro_start_p := find_section precision_lines (lit "## 1 Introduction") in
  (abs_start_d = 0 ∨ abs_start_p = 0 ∨ intro_start_d = 0 ∨ intro_start_p = 0 →
     abstract_sections docling_lines precision_lines = None ∧
     abs_sim docling_lines precision_lines = Ok None) ∧
  (abs_start_d ≠ 0 ∧ abs_start_p ≠ 0 ∧ intro_start_d ≠ 0 ∧ intro_start_p ≠ 0 →
     abstract_sections docling_lines precision_lines
     = Some (concat (slice docling_lines abs_start_d intro_start_d),
             concat (slice precision_lines abs_start_p intro_start_p)) ∧
     ∃ sim, abs_sim docling_lines precision_lines = Ok (Some sim)).
Proof.
  split; [|split].
  - intros lines marker. apply find_from_none.
  - intros pre line post marker Hpre Hline. unfold find_section.
    by rewrite find_from_first.
  - cbv zeta. split.
    + intros Hzero.
      assert (abstract_sections docling_lines precision_lines = None) as Hnone.
      { unfold abstract_sections. cbv zeta.
        destruct Hzero as [-> | [-> | [-> | ->]]]; simpl;
          rewrite ?andb_false_r; done. }
      split; [done|]. unfold abs_sim. by rewrite Hnone.
    + intros (H1 & H2 & H3 & H4).
      assert (abstract_sections docling_lines precision_lines
              = Some (concat (slice docling_lines
                                (find_section docling_lines (lit "## Abstract"))
                                (find_section docling_lines (lit "## 1 Introduction"))),
                      concat (slice precision_lines
                                (find_section precision_lines (lit "## Abstract"))
                                (find_section precision_lines (lit "## 1 Introduction")))))
        as Hsome.
      { unfold abstract_sections. cbv zeta. by rewrite !bool_decide_eq_true_2. }
      split; [done|]. unfold abs_sim. rewrite Hsome.
      match goal with |- context [similarity ?u ?v] =>
        destruct (similarity_new u v) as (core & _ & ->) end.
      simpl. eauto.
Qed.

End Region.

(** C7 as stated fails: in a file with no [## Abstract] line, and in one
    with no [## 1 Introduction] line after it, nothing is cut out. *)
Lemma C7_no_region_without_marker :
  let no_start := readlines (lit "Title" ++ [nl] ++ lit "## 1 Introduction" ++ [nl]
                             ++ lit "text" ++ [nl]) in
  let no_end := readlines (lit "Title" ++ [nl] ++ lit "## Abstract" ++ [nl]
                           ++ lit "text" ++ [nl]) in
  detailed_diff.find_section no_start (lit "## Abstract") = 0 ∧
  detailed_diff.abstract_sections no_start no_start = None ∧
  detailed_diff.abs_sim no_start no_start = Ok None ∧
  detailed_diff.find_section no_end (lit "## Abstract") = 1 ∧
  detailed_diff.find_section no_end (lit "## 1 Introduction") = 0 ∧
  detailed_diff.abstract_sections no_end no_end = None ∧
  detailed_diff.abs_sim no_end no_end = Ok None.
Proof. split_and!; vm_compute; reflexivity. Qed.

(** ** The section analysis of [compare_detailed.py]: claim C4 *)

Section Sections.
Import compare_detailed.

Lemma split_from_cons sep s : ∀ skip, ∃ first rest, split_from sep skip s = first :: rest.
Proof.
  induction s as [|c s IH]; intros skip; simpl; [by eexists _, _|].
  destruct skip as [|skip]; [|apply IH].
  destruct (startswith (c :: s) sep); [by eexists _, _|].
  destruct (IH 0) as (first & rest & ->). by eexists _, _.
Qed.

Lemma analyse_spec i d_sec p_sec printed :
  ∃ printed', analyse (i, (d_sec, p_sec)) printed = Ok printed' ∧
    ((length d_sec < 10 ∧ printed' = printed) ∨
     (∃ entry, emits i d_sec p_sec entry ∧ printed' = printed ++ [entry])).
Proof.
  unfold analyse. case_bool_decide as Hlen; [eexists; split; [done|]; by left|].
  destruct (similarity_new d_sec p_sec) as (core & _ & Hsim). rewrite Hsim. simpl.
  destruct (split_from_cons [nl] d_sec 0) as (first & rest & Hsplit).
  unfold split at 1. rewrite Hsplit. simpl.
  eexists. split; [done|]. right. eexists (i, slice first 0 50, _).
  split; [|done]. split; [lia|]. exists first, rest. by split_and!.
Qed.

Lemma zipped_sections_lookup (ds ps : list str) i d p :
  enumerate (zip (slice ds 0 5) (slice ps 0 5)) !! i = Some (i, (d, p))
  ↔ i < 5 ∧ ds !! i = Some d ∧ ps !! i = Some p.
Proof.
  unfold enumerate, slice. simpl. rewrite list_lookup_imap_Some. split.
  - intros ([d0 p0] & Hz & [= -> ->]).
    apply lookup_zip_with_Some in Hz as (d' & p' & [= -> ->] & Hd & Hp).
    apply lookup_take_Some in Hd as [Hd ?]. apply lookup_take_Some in Hp as [Hp ?].
    done.
  - intros (Hi & Hd & Hp). exists (d, p). split; [|done].
    apply lookup_zip_with_Some. exists d, p. split_and!; [done | |];
      by apply lookup_take_Some.
Qed.

(** C4, as amended.  Both texts are cut at the same heading, ["\n## "], and
    the sections are paired by position alone, the first with the first and
    so on, for the first five of each text: a line is printed for a
    position exactly when both texts have a section there and the one of
    the reference is 10 characters or longer, with the first line of that
    section as title and the similarity of the two sections.  Titles are
    not compared, and the sections that one text has in excess are left
    out. *)
Theorem C4_sections_paired_by_position (docling precision : str) :
  sections docling = split docling (nl :: lit "## ") ∧
  sections precision = split precision (nl :: lit "## ") ∧
  ∃ lines,
    section_analysis docling precision = Ok lines ∧
    (∀ entry, entry ∈ lines ↔ reported docling precision entry) ∧
    length lines ≤ 5 `min` (length (sections docling) `min` length (sections precision)).
Proof.
  split; [done|]. split; [done|]. unfold section_analysis.
  set (pairs := enumerate (zip (slice (sections docling) 0 5)
                               (slice (sections precision) 0 5))).
  destruct (for_rule (λ done printed,
              (∀ entry, entry ∈ printed ↔
                 ∃ i d p, (i, (d, p)) ∈ done ∧ emits i d p entry) ∧
              length printed ≤ length done)
              analyse pairs [] []) as (lines & Hfor & Hin & Hlen).
  - split; [|done]. intros entry. split.
    + intros Hin. by apply elem_of_nil in Hin.
    + intros (i & d & p & Hin & _). by apply elem_of_nil in Hin.
  - intros pre [i [d p]] post printed _ _ [Hin Hlen].
    destruct (analyse_spec i d p printed) as (printed' & -> & Hcase).
    exists printed'. split; [done|].
    destruct Hcase as [[Hshort ->]|(entry & Hentry & ->)].
    + split; [|rewrite length_app; simpl; lia]. intros e. rewrite Hin. split.
      * intros (i' & d' & p' & Hpre & He). exists i', d', p'.
        split; [apply elem_of_app; by left | done].
      * intros (i' & d' & p' & [Hpre|Hlast%list_elem_of_singleton]%elem_of_app & He).
        -- by exists i', d', p'.
        -- injection Hlast as -> -> ->. destruct He as [He _]. lia.
    + split; [|rewrite !length_app; simpl; lia]. intros e.
      rewrite elem_of_app, list_elem_of_singleton, Hin. split.
      * intros [(i' & d' & p' & Hpre & He)| ->].
        -- exists i', d', p'. split; [apply elem_of_app; by left | done].
        -- exists i, d, p. split; [apply elem_of_app; right; by left | done].
      * intros (i' & d' & p' & [Hpre|Hlast%list_elem_of_singleton]%elem_of_app & He).
        -- left. by exists i', d', p'.
        -- injection Hlast as -> -> ->. right.
           destruct He as (_ & f1 & r1 & Hs1 & He1 & Hr1).
           destruct Hentry as (_ & f2 & r2 & Hs2 & He2 & Hr2).
           rewrite Hs1 in Hs2. injection Hs2 as <- <-.
           rewrite Hr1 in Hr2. injection Hr2 as Hr.
           destruct e as [e1 e2], entry as [n1 n2]. simpl in *. congruence.
  - exists lines. simpl in Hin, Hlen. split; [done|]. split.
    + intros entry. rewrite Hin. unfold reported. split.
      * intros (i & d & p & Hpair & He). apply list_elem_of_lookup in Hpair as [k Hk].
        assert (k = i) as ->.
        { unfold pairs, enumerate in Hk. apply list_lookup_imap_Some in Hk as (? & _ & [=]).
          done. }
        apply zipped_sections_lookup in Hk as (Hi & Hd & Hp).
        assert (entry.1.1 = i) as Hidx.
        { destruct He as (_ & f & r & _ & He & _). by rewrite He. }
        rewrite Hidx. by exists d, p.
      * intros (d & p & Hi & Hd & Hp & He). exists entry.1.1, d, p. split; [|done].
        apply list_elem_of_lookup. exists entry.1.1. by apply zipped_sections_lookup.
    + etrans; [exact Hlen|]. unfold pairs, enumerate, slice.
      rewrite length_imap, length_zip_with, !length_drop, !length_take. lia.
Qed.

End Sections.

(** C4 as stated fails: the reference has the sections [Abstract] and
    [1 Introduction], the candidate only [1 Introduction]; [Abstract] is
    compared with [1 Introduction], the section at its position in the
    candidate, and the [1 Introduction] of the reference, which the
    candidate has word for word, is left out. *)
Lemma C4_pairing_ignores_titles :
  let docling := lit "Title text here" ++ [nl] ++ lit "## Abstract" ++ [nl]
                 ++ lit "alpha beta gamma" ++ [nl] ++ lit "## 1 Introduction" ++ [nl]
                 ++ lit "delta epsilon" in
  let precision := lit "Title text here" ++ [nl] ++ lit "## 1 Introduction" ++ [nl]
                   ++ lit "delta epsilon" in
  title <$> compare_detailed.sections docling
    = [lit "Title text here"; lit "Abstract"; lit "1 Introduction"] ∧
  title <$> compare_detailed.sections precision
    = [lit "Title text here"; lit "1 Introduction"] ∧
  compare_detailed.sections docling !! 2 = compare_detailed.sections precision !! 1 ∧
  compare_detailed.section_analysis docling precision
    = Ok [(0, lit "Title text here", (3000 # 30)%Q); (1, lit "Abstract", (1800 # 53)%Q)].
Proof. split_and!; vm_compute; reflexivity. Qed.

(** ** [unified_diff] and the windows of the scripts: claims C2 and C8 *)

Section Diffs.
Import Unified.

Lemma getlast_Ok {T} (l : list T) : l ≠ [] → ∃ x, getlast l = Ok x.
Proof.
  intros Hl. destruct l as [|y l _] using rev_ind; [done|].
  exists y. apply getlast_snoc.
Qed.

Lemma getitem_first {T} (l : list T) : l ≠ [] → ∃ x, getitem l 0 = Ok x.
Proof. destruct l as [|x l]; [done|]. by exists x. Qed.

Lemma regroup_yields n codes : ∀ group yielded,
  Forall (λ g : list Opcode, g ≠ []) yielded →
  Forall (λ g : list Opcode, g ≠ []) (foldl (regroup n) (group, yielded) codes).2.
Proof.
  induction codes as [|[[[[tag i1] i2] j1] j2] codes IH]; intros group yielded Hy; [done|].
  simpl. unfold append. case_match; apply IH; [|done].
  apply Forall_app. split; [done|]. apply Forall_singleton. by destruct group.
Qed.

Lemma get_grouped_opcodes_returns {A} `{Countable A} (a b : list A) n :
  ∃ groups self',
    get_grouped_opcodes (new None a b true) n = Ok (groups, self') ∧
    Forall (λ g : list Opcode, g ≠ []) groups.
Proof.
  unfold get_grouped_opcodes.
  destruct (get_opcodes_new a b) as (core & self' & _ & -> & _). simpl.
  match goal with |- context [getitem ?c 0] => set (codes := c) end.
  assert (codes ≠ []) as Hcodes by (unfold codes; by case_bool_decide).
  destruct (getitem_first codes Hcodes) as ([[[[tag i1] i2] j1] j2] & ->). simpl.
  match goal with |- context [getlast ?c] => set (codes1 := c) end.
  assert (codes1 ≠ []) as Hcodes1.
  { unfold codes1. case_bool_decide; [|done]. intros Hnil%(f_equal length).
    rewrite length_insert in Hnil. by destruct codes. }
  destruct (getlast_Ok codes1 Hcodes1) as ([[[[tag' i1'] i2'] j1'] j2'] & ->). simpl.
  match goal with |- context [foldl (regroup n) ([], []) ?c] =>
    pose proof (regroup_yields n c [] [] (Forall_nil_2 _)) as Hy;
    destruct (foldl (regroup n) ([], []) c) as [group yielded] end.
  simpl in Hy.
  assert (∃ last_tag,
            (if bool_decide (length group = 1)
             then code ← getitem group 0; Ok (Some code.1.1.1.1)
             else Ok None) = Ok last_tag) as (last_tag & ->).
  { case_bool_decide as Hlen; [|by eexists].
    destruct group as [|code group]; [done|]. by eexists. }
  simpl. eexists _, _. split; [done|]. unfold append.
  case_match; [|done]. apply Forall_app. split; [done|]. apply Forall_singleton.
  apply andb_prop in H0 as [Hne _]. by apply bool_decide_eq_true in Hne.
Qed.

Lemma hunk_returns (a b : list str) lineterm group :
  group ≠ [] → returns (hunk a b lineterm group).
Proof.
  intros Hg. unfold hunk.
  destruct (getitem_first group Hg) as (first & ->).
  destruct (getlast_Ok group Hg) as (last & ->). simpl. by eexists.
Qed.

Lemma unified_diff_returns (a b : list str) fromfile tofile n lineterm :
  returns (unified_diff a b fromfile tofile n lineterm).
Proof.
  unfold unified_diff.
  destruct (get_grouped_opcodes_returns a b n) as (groups & self' & -> & Hg). simpl.
  match goal with |- context [for_ groups ?body ?s] =>
    destruct (for_rule (λ _ _, True) body groups [] s) as ([started lines] & -> & _) end.
  - done.
  - intros pre group post [started lines] Heq _ _. simpl in Heq.
    assert (group ≠ []) as Hne.
    { rewrite Forall_forall in Hg. apply Hg. rewrite Heq.
      apply elem_of_app. right. by left. }
    destruct (hunk_returns a b lineterm group Hne) as (h & ->). simpl. eauto.
  - simpl. by eexists.
Qed.

Lemma similarity_returns {A} `{Countable A} (x y : list A) : returns (similarity x y).
Proof. destruct (similarity_new x y) as (core & _ & ->). by eexists. Qed.

Lemma section_analysis_returns docling precision :
  returns (compare_detailed.section_analysis docling precision).
Proof.
  unfold compare_detailed.section_analysis.
  match goal with |- returns (for_ ?l ?body ?s) =>
    destruct (for_rule (λ _ _, True) body l [] s) as (lines & -> & _) end.
  - done.
  - intros pre [i [d p]] post printed _ _ _.
    destruct (analyse_spec i d p printed) as (printed' & -> & _). eauto.
  - by eexists.
Qed.

Lemma main_returns precision docling : returns (detailed_diff.main precision docling).
Proof.
  unfold detailed_diff.main, detailed_diff.issues, detailed_diff.diff.
  match goal with |- context [unified_diff ?a ?b ?f ?t ?n ?l] =>
    destruct (unified_diff_returns a b f t n l) as (d & ->) end. simpl.
  unfold detailed_diff.abs_sim.
  destruct (detailed_diff.abstract_sections _ _) as [[abstract_d abstract_p]|].
  - destruct (similarity_returns abstract_d abstract_p) as (r & ->). simpl.
    unfold detailed_diff.total_sim.
    match goal with |- context [similarity ?u ?v] =>
      destruct (similarity_returns u v) as (t & ->) end. by eexists.
  - simpl. unfold detailed_diff.total_sim.
    match goal with |- context [similarity ?u ?v] =>
      destruct (similarity_returns u v) as (t & ->) end. by eexists.
Qed.

(** C8.  Every computation of the scripts returns, whatever the texts of
    the files are: the similarities of [test_precision.py] and
    [compare_modes.py], everything that [detailed_diff.py] works out
    (the issues of the diff, the counters, the abstract when its markers
    are found, the overall similarity) and the similarity, the diff and the
    section analysis of [compare_detailed.py]; so does [unified_diff] on
    any two lists of lines.  No index is out of range and no loop runs
    out of its budget, also for empty texts, texts without headings and
    texts with different numbers of sections. *)
Theorem C8_comparisons_return (fast precision docling : str) :
  returns (test_precision.sim precision docling) ∧
  returns (compare_modes.fast_sim fast docling) ∧
  returns (compare_modes.precision_sim precision docling) ∧
  returns (compare_modes.improvement fast precision docling) ∧
  returns (detailed_diff.main precision docling) ∧
  returns (compare_detailed.sim precision docling) ∧
  returns (compare_detailed.diff docling precision) ∧
  returns (compare_detailed.section_analysis docling precision) ∧
  (∀ (a b : list str) fromfile tofile n lineterm,
     returns (unified_diff a b fromfile tofile n lineterm)).
Proof.
  split_and!.
  - apply similarity_returns.
  - apply similarity_returns.
  - apply similarity_returns.
  - unfold compare_modes.improvement, compare_modes.fast_sim, compare_modes.precision_sim.
    destruct (similarity_returns fast docling) as (f & ->).
    destruct (similarity_returns precision docling) as (p & ->). by eexists.
  - apply main_returns.
  - apply similarity_returns.
  - unfold compare_detailed.diff. cbv zeta. apply unified_diff_returns.
  - apply section_analysis_returns.
  - intros a b fromfile tofile n lineterm. apply unified_diff_returns.
Qed.

End Diffs.

Section Windows.
Import Unified.

(** C2, as amended.  A window of [N] lines is cut from the two inputs
    before they are aligned, and the opcodes of the alignment cover the
    window on both sides, from 0 to the [N] lines or to the end of a
    shorter file, piece after piece, with no gap and no overlap.  The diff
    of [detailed_diff.py] depends on the first 100 lines of each file
    only; its lines are the groups of [unified_diff], which leave out the
    equal lines far from a change, and the script looks only at the first
    200 of them. *)
Theorem C2_window_cut_before_alignment (N : nat) (docling_lines precision_lines : list str) :
  (∃ ops self',
     get_opcodes (new None (slice docling_lines 0 N) (slice precision_lines 0 N) true)
       = Ok (ops, self') ∧
     tiles (slice docling_lines 0 N) (slice precision_lines 0 N)
           0 0 (N `min` length docling_lines) (N `min` length precision_lines) ops) ∧
  (∀ docling_lines' precision_lines',
     slice docling_lines' 0 100 = slice docling_lines 0 100 →
     slice precision_lines' 0 100 = slice precision_lines 0 100 →
     detailed_diff.diff docling_lines' precision_lines'
     = detailed_diff.diff docling_lines precision_lines) ∧
  (∀ diff, detailed_diff.issues_of (slice diff 0 200) = detailed_diff.issues_of diff).
Proof.
  split_and!.
  - destruct (get_opcodes_new (slice docling_lines 0 N) (slice precision_lines 0 N))
      as (core & self' & Hcore & Ho & _).
    destruct (matching_blocks_new (slice docling_lines 0 N) (slice precision_lines 0 N))
      as (core' & Hcore' & Hm & Hc & _).
    rewrite Hcore in Hcore'. injection Hcore' as Heq. apply app_inv_tail in Heq as <-.
    eexists _, _. split; [exact Ho|].
    assert (∀ l : list str, length (slice l 0 N) = N `min` length l) as Hlen.
    { intros l. unfold slice. by rewrite length_drop, length_take, Nat.sub_0_r. }
    rewrite <- !Hlen. by apply opcodes_of_tiles.
  - intros d' p' Hd Hp. unfold detailed_diff.diff. by rewrite Hd, Hp.
  - intros diff. unfold detailed_diff.issues_of, slice.
    by rewrite !drop_0, take_take, Nat.min_id.
Qed.

End Windows.

(** C2 as stated fails.  For ten lines that are the same and an eleventh
    that is changed, the hunk of the diff starts at line 7: lines 0 to 6
    are in no hunk.  For 105 lines against 103 that are all different,
    the diff of the two windows has 203 lines, and the script, which takes
    the first 200, finds 197 issues where the diff has 200 changed
    lines. *)
Lemma C2_hunks_leave_gaps_and_output_is_cut :
  let same := concat ((λ i, lit "line " ++ format_int i ++ [nl]) <$> seq 0 10) in
  let docling_lines := readlines (same ++ lit "old" ++ [nl]) in
  let precision_lines := readlines (same ++ lit "new" ++ [nl]) in
  let long_docling :=
    readlines (concat ((λ i, lit "a" ++ format_int i ++ [nl]) <$> seq 0 105)) in
  let long_precision :=
    readlines (concat ((λ i, lit "b" ++ format_int i ++ [nl]) <$> seq 0 103)) in
  fst <$> Unified.get_grouped_opcodes
            (Difflib.new None (slice docling_lines 0 100) (slice precision_lines 0 100) true) 3
    = Ok [[(Difflib.equal, 7, 10, 7, 10); (Difflib.replace, 10, 11, 10, 11)]] ∧
  ¬ tiles (slice docling_lines 0 100) (slice precision_lines 0 100) 0 0 11 11
      [(Difflib.equal, 7, 10, 7, 10); (Difflib.replace, 10, 11, 10, 11)] ∧
  (λ diff, (length diff, length (detailed_diff.issues_of diff),
            length (foldl detailed_diff.record [] diff)))
    <$> detailed_diff.diff long_docling long_precision
    = Ok (203, 197, 200).
Proof.
  split_and!.
  - vm_compute. reflexivity.
  - simpl. intros (Hstart & _). discriminate Hstart.
  - vm_compute. reflexivity.
Qed.

(** * Further properties of the scripts *)

(** ** The range of the similarity *)

Lemma calculate_ratio_range matches length :
  2 * matches ≤ length → (0 <= _calculate_ratio matches length <= 1)%Q.
Proof.
  intros Hle. unfold _calculate_ratio. case_bool_decide as Hl; [|done].
  unfold Qle. simpl. rewrite (Zpos_of_nat _ Hl). lia.
Qed.

Lemma matched_le_min (la lb : nat) core :
  chain 0 0 (core ++ [(la, lb, 0)]) → matched core ≤ la `min` lb.
Proof. intros [??]%chain_matched. lia. Qed.

Lemma similarity_range {A} `{Countable A} (x y : list A) :
  ∃ m, similarity x y = Ok (_calculate_ratio m (length x + length y) * 100)%Q ∧
       m ≤ length x `min` length y.
Proof.
  destruct (similarity_new x y) as (core & Hc & Hs).
  destruct (matching_blocks_new x y) as (core' & Hc' & _ & Hchain & _).
  rewrite Hc in Hc'. injection Hc' as Heq. apply app_inv_tail in Heq as <-.
  exists (matched core). split; [done|]. by apply matched_le_min.
Qed.

(** X1 ([test_precision.py] line 11, [compare_modes.py] lines 14 to 16,
    [compare_detailed.py] line 16).  The similarity that the scripts print
    is a percentage: it lies between 0 and 100 for all texts, and it is at
    most [200 * min(len(x), len(y)) / (len(x) + len(y))], so that a text
    and a much shorter one are never close; the improvement of
    [compare_modes.py] lies between -100 and 100. *)
Theorem similarity_is_a_percentage {A} `{Countable A} (x y : list A) :
  (∃ r, similarity x y = Ok r ∧ (0 <= r <= 100)%Q ∧
     (r * inject_Z (Z.of_nat (length x + length y))
      <= inject_Z (200 * Z.of_nat (length x `min` length y)))%Q) ∧
  (∀ fast precision docling : str, ∃ i,
     compare_modes.improvement fast precision docling = Ok i ∧ (-100 <= i <= 100)%Q).
Proof.
  assert (∀ {B} `{Countable B} (u v : list B), ∃ r, similarity u v = Ok r ∧ (0 <= r <= 100)%Q ∧
     (r * inject_Z (Z.of_nat (length u + length v))
      <= inject_Z (200 * Z.of_nat (length u `min` length v)))%Q) as Hsim.
  { intros B ?? u v. destruct (similarity_range u v) as (m & -> & Hm).
    eexists. split; [done|]. revert Hm.
    generalize (length u) (length v). intros la lb Hm.
    unfold _calculate_ratio. case_bool_decide as Hl.
    - unfold Qle, Qmult, inject_Z. simpl. rewrite !Pos.mul_1_r, !(Zpos_of_nat _ Hl). split; [lia|nia].
    - assert (la = 0 ∧ lb = 0) as [-> ->] by lia. done. }
  split; [apply Hsim|].
  intros fast precision docling. unfold compare_modes.improvement,
    compare_modes.fast_sim, compare_modes.precision_sim.
  destruct (Hsim _ _ _ fast docling) as (f & -> & Hf & _).
  destruct (Hsim _ _ _ precision docling) as (p & -> & Hp & _).
  simpl. eexists. split; [done|].
  destruct Hf, Hp. split.
  - apply Qle_trans with (0 - 100)%Q; [done|].
    apply Qplus_le_compat; [done|]. by apply Qopp_le_compat.
  - apply Qle_trans with (100 - 0)%Q; [|done].
    apply Qplus_le_compat; [done|]. by apply Qopp_le_compat.
Qed.

(** ** Splitting a text and joining it again *)

Section Splitting.
Implicit Types (s sep piece : str) (pieces : list str).

Lemma join_cons sep piece pieces :
  pieces ≠ [] → join sep (piece :: pieces) = piece ++ sep ++ join sep pieces.
Proof. by destruct pieces. Qed.

Lemma startswith_false s p : startswith s p = false ↔ ¬ ∃ rest, s = p ++ rest.
Proof. rewrite <- startswith_spec. by destruct (startswith s p). Qed.

Lemma split_from_not_nil sep s skip : split_from sep skip s ≠ [].
Proof. by destruct (split_from_cons sep s skip) as (? & ? & ->). Qed.

Lemma join_split_from sep s : sep ≠ [] →
  ∀ skip, join sep (split_from sep skip s) = drop skip s.
Proof.
  intros Hsep. induction s as [|c s IH]; intros skip; simpl.
  { by destruct skip. }
  destruct skip as [|skip]; [|apply IH].
  destruct (startswith (c :: s) sep) eqn:Hst.
  - rewrite join_cons by apply split_from_not_nil. rewrite IH. simpl.
    apply startswith_spec in Hst as [rest Hrest].
    destruct sep as [|c' sep]; [done|]. simplify_eq/=.
    rewrite Nat.sub_0_r, drop_app_length. done.
  - specialize (IH 0). rewrite drop_0 in IH.
    destruct (split_from sep 0 s) as [|piece pieces] eqn:Hsp.
    { by destruct (split_from_not_nil sep s 0). }
    destruct pieces; simpl in *; by rewrite IH.
Qed.

Lemma contains_nil_r sep : sep ≠ [] → contains sep [] = false.
Proof.
  intros Hsep. simpl. rewrite orb_false_r. apply startswith_false.
  intros [rest Hrest]. by destruct sep.
Qed.

Lemma split_from_first_prefix sep s piece pieces : sep ≠ [] →
  split_from sep 0 s = piece :: pieces → ∃ rest, s = piece ++ rest.
Proof.
  intros Hsep Hsp. pose proof (join_split_from sep s Hsep 0) as Hj.
  rewrite Hsp, drop_0 in Hj. destruct pieces; simpl in Hj.
  - exists []. by rewrite app_nil_r.
  - eauto.
Qed.

Lemma split_from_pieces sep s : sep ≠ [] →
  ∀ skip, Forall (λ piece, contains sep piece = false) (split_from sep skip s).
Proof.
  intros Hsep. induction s as [|c s IH]; intros skip; simpl.
  { constructor; [|done]. by apply contains_nil_r. }
  destruct skip as [|skip]; [|apply IH].
  destruct (startswith (c :: s) sep) eqn:Hst.
  - constructor; [by apply contains_nil_r|apply IH].
  - destruct (split_from sep 0 s) as [|piece pieces] eqn:Hsp.
    { by destruct (split_from_not_nil sep s 0). }
    specialize (IH 0). rewrite Hsp in IH. inversion IH as [|?? Hp Hps]; subst.
    constructor; [|done]. simpl. rewrite Hp, orb_false_r.
    apply startswith_false. intros [rest Hrest].
    apply startswith_false in Hst. apply Hst.
    destruct (split_from_first_prefix sep s piece pieces Hsep Hsp) as [rest' ->].
    exists (rest ++ rest'). rewrite app_comm_cons, Hrest. by rewrite <- app_assoc.
Qed.

Lemma contains_char c s : contains [c] s = bool_decide (c ∈ s).
Proof.
  induction s as [|c' s IH]; cbn [contains].
  - rewrite orb_false_r. case_bool_decide as Hin; [by apply elem_of_nil in Hin|].
    apply startswith_false. by intros [rest Hrest].
  - rewrite IH. apply eq_true_iff_eq.
    rewrite orb_true_iff, startswith_spec, !bool_decide_eq_true, elem_of_cons.
    split.
    + intros [[rest Hrest]|?]; [left; by simplify_eq/=|by right].
    + intros [->|?]; [left; by exists s|by right].
Qed.

Lemma length_split_char c (s : list ascii) :
  length (split s [c]) = S (length (filter (λ c', c' = c) s)).
Proof.
  unfold split. induction s as [|c' s IH]; [done|]. cbn [split_from].
  destruct (startswith (c' :: s) [c]) eqn:Hst.
  - apply startswith_spec in Hst as [rest Hrest]. injection Hrest as -> ->.
    rewrite filter_cons_True by done. cbn [length]. by rewrite <- IH.
  - assert (c' ≠ c) as Hne.
    { intros ->. apply startswith_false in Hst. apply Hst. by exists s. }
    rewrite filter_cons_False by done. rewrite <- IH.
    by destruct (split_from [c] 0 s).
Qed.

End Splitting.

(** ** Lines of a file *)

Section Lines.
Implicit Types (s line : str).

Lemma readlines_cons_nl (s : list ascii) : readlines (nl :: s) = [nl] :: readlines s.
Proof. cbn [readlines]. by case_bool_decide. Qed.

Lemma readlines_cons_other c (s : list ascii) :
  c ≠ nl →
  readlines (c :: s) = match readlines s with
                       | line :: lines => (c :: line) :: lines
                       | [] => [[c]]
                       end.
Proof. intros Hc. cbn [readlines]. by case_bool_decide. Qed.

Lemma concat_readlines (s : list ascii) : concat (readlines s) = s.
Proof.
  induction s as [|c s IH]; [done|].
  destruct (decide (c = nl)) as [->|Hc].
  - rewrite readlines_cons_nl. simpl. by rewrite IH.
  - rewrite readlines_cons_other by done.
    destruct (readlines s); simpl in *; by rewrite <- IH.
Qed.

(** A line of [readlines]: it is not empty, and a line feed can only be
    its last character. *)
Lemma readlines_lines (s : list ascii) :
  Forall (λ line : list ascii, ∃ body, (nl ∉ body) ∧ (line = body ++ [nl] ∨ (line = body ∧ body ≠ [])))
         (readlines s).
Proof.
  induction s as [|c s IH]; [constructor|].
  destruct (decide (c = nl)) as [->|Hc].
  - rewrite readlines_cons_nl. constructor; [|done].
    exists []. split; [apply not_elem_of_nil|by left].
  - rewrite readlines_cons_other by done.
    destruct (readlines s) as [|line lines].
    + constructor; [|done]. exists [c]. split; [|by right].
      intros ?%list_elem_of_singleton. congruence.
    + inversion IH as [|?? (body & Hbody & Hline) Hlines]; subst.
      constructor; [|done]. exists (c :: body). split.
      * rewrite elem_of_cons. intros [?|?]; [congruence|done].
      * destruct Hline as [->|[-> _]]; [by left|by right].
Qed.

End Lines.

(** ** Whitespace at the ends of a line *)

Section Strip.
Implicit Types (s : list ascii).

Lemma lstrip_spec s :
  ∃ pre, s = pre ++ lstrip s ∧ blank pre ∧
         ∀ c, head (lstrip s) = Some c → isspace c = false.
Proof.
  induction s as [|c s (pre & Hs & Hpre & Hhead)]; simpl.
  { exists []. split_and!; [done|constructor|done]. }
  destruct (isspace c) eqn:Hc.
  - exists (c :: pre). split_and!; [by rewrite Hs at 1|by constructor|done].
  - exists []. split_and!; [done|constructor|]. by intros ? [= <-].
Qed.

Lemma lstrip_nil_iff s : lstrip s = [] ↔ blank s.
Proof.
  induction s as [|c s IH]; simpl; [by split; [constructor|]|].
  destruct (isspace c) eqn:Hc.
  - rewrite IH. split; [by constructor|by inversion 1].
  - split; [done|]. inversion 1; congruence.
Qed.

Lemma lstrip_fixed s :
  (∀ c, head s = Some c → isspace c = false) → lstrip s = s.
Proof. destruct s as [|c s]; [done|]. intros Hc. simpl. by rewrite (Hc c). Qed.

Lemma lstrip_app_keep s t c :
  isspace c = false → c ∈ s → lstrip (s ++ t) = lstrip s ++ t.
Proof.
  intros Hc. induction s as [|c' s IH]; [by intros ?%elem_of_nil|].
  simpl. destruct (isspace c') eqn:Hc'; [|done].
  intros [->|?]%elem_of_cons; [congruence|auto].
Qed.

Lemma rstrip_spec s :
  ∃ post, s = rstrip s ++ post ∧ blank post ∧
          ∀ c, last (rstrip s) = Some c → isspace c = false.
Proof.
  unfold rstrip. destruct (lstrip_spec (reverse s)) as (pre & Hs & Hpre & Hhead).
  exists (reverse pre). split_and!.
  - rewrite <- reverse_app, <- Hs. by rewrite reverse_involutive.
  - by apply Forall_reverse.
  - intros c. rewrite last_reverse. apply Hhead.
Qed.

Lemma rstrip_nil_iff s : rstrip s = [] ↔ blank s.
Proof.
  unfold rstrip, blank. rewrite <- (Forall_reverse _ s), <- lstrip_nil_iff.
  split; [|by intros ->].
  intros Hr. apply (f_equal reverse) in Hr. by rewrite reverse_involutive in Hr.
Qed.

Lemma strip_rstrip s : strip s = rstrip (lstrip s).
Proof. done. Qed.

(** The head of a text that does not start with whitespace survives
    [rstrip]. *)
Lemma rstrip_head s c : head s = Some c → isspace c = false → head (rstrip s) = Some c.
Proof.
  intros Hhead Hc. destruct (rstrip_spec s) as (post & Hs & Hpost & _).
  destruct (rstrip s) as [|c' r] eqn:Hr.
  - apply rstrip_nil_iff in Hr. destruct s as [|c' s]; [done|].
    simplify_eq/=. inversion Hr; congruence.
  - rewrite Hs in Hhead. by simplify_eq/=.
Qed.

Lemma strip_spec s :
  ∃ pre post, s = pre ++ strip s ++ post ∧ blank pre ∧ blank post ∧
    (∀ c, head (strip s) = Some c → isspace c = false) ∧
    (∀ c, last (strip s) = Some c → isspace c = false).
Proof.
  rewrite strip_rstrip.
  destruct (lstrip_spec s) as (pre & Hs & Hpre & Hhead).
  destruct (rstrip_spec (lstrip s)) as (post & Hl & Hpost & Hlast).
  exists pre, post. split_and!; [by rewrite <- Hl|done..| |done].
  intros c Hc. destruct (lstrip s) as [|c' l] eqn:Hls; [done|].
  pose proof (Hhead c' eq_refl) as Hc'.
  rewrite (rstrip_head (c' :: l) c' eq_refl Hc') in Hc. by simplify_eq.
Qed.

Lemma strip_nil_iff s : strip s = [] ↔ blank s.
Proof.
  rewrite strip_rstrip, rstrip_nil_iff. split.
  - intros Hb. destruct (lstrip_spec s) as (pre & Hs & Hpre & Hhead).
    destruct (lstrip s) as [|c l]; [rewrite Hs; by rewrite app_nil_r|].
    inversion Hb; subst. by rewrite (Hhead c eq_refl) in *.
  - intros Hb. apply lstrip_nil_iff in Hb as ->. constructor.
Qed.

(** A text with no whitespace at either end is left as it is. *)
Lemma strip_fixed s :
  (∀ c, head s = Some c → isspace c = false) →
  (∀ c, last s = Some c → isspace c = false) → strip s = s.
Proof.
  intros Hhead Hlast. rewrite strip_rstrip, lstrip_fixed by done.
  unfold rstrip. rewrite lstrip_fixed; [by rewrite reverse_involutive|].
  intros c. rewrite <- last_reverse, reverse_involutive. apply Hlast.
Qed.

Lemma strip_idemp s : strip (strip s) = strip s.
Proof.
  destruct (strip_spec s) as (_ & _ & _ & _ & _ & Hhead & Hlast).
  by apply strip_fixed.
Qed.

End Strip.

(** ** What the scripts make of a text *)

Section Texts.
Import detailed_diff compare_detailed.

Lemma readlines_inner (s : list ascii) : ∀ i line,
  readlines s !! i = Some line → S i < length (readlines s) → last line = Some nl.
Proof.
  induction s as [|c s IH]; intros i line; [done|].
  destruct (decide (c = nl)) as [->|Hc].
  - rewrite readlines_cons_nl. destruct i as [|i]; simpl.
    + by intros [= <-].
    + intros Hi Hlen. apply (IH i); [done|lia].
  - rewrite readlines_cons_other by done.
    destruct (readlines s) as [|line' lines'] eqn:Hr.
    { destruct i; simpl; [lia|done]. }
    destruct i as [|i]; simpl.
    + intros [= <-] Hlen. specialize (IH 0 line' eq_refl). simpl in IH.
      specialize (IH Hlen). by destruct line'.
    + intros Hi Hlen. by apply (IH (S i)).
Qed.

(** X2 ([compare_detailed.py] lines 21 to 26 and 68 to 69).  Splitting a
    text at its line feeds, or at its headings, loses nothing: the pieces
    joined with the separator are the text again, and no piece holds the
    separator.  The number of lines that the script prints is the number
    of line feeds plus one, so an empty file has one line, and the
    difference printed is that of the numbers of line feeds. *)
Theorem split_loses_nothing (docling precision : str) :
  join [nl] (split docling [nl]) = docling ∧
  Forall (λ line, nl ∉ line) (split docling [nl]) ∧
  join heading (sections docling) = docling ∧
  Forall (λ section, contains heading section = false) (sections docling) ∧
  line_counts docling precision
  = (S (newlines docling), S (newlines precision),
     Z.abs (Z.of_nat (newlines docling) - Z.of_nat (newlines precision))).
Proof.
  split_and!.
  - unfold split. by rewrite join_split_from, drop_0.
  - eapply Forall_impl; [by apply (split_from_pieces [nl])|].
    intros line; cbv beta. rewrite contains_char. by intros ?%bool_decide_eq_false.
  - unfold sections, split. by rewrite join_split_from, drop_0.
  - by apply split_from_pieces.
  - unfold line_counts. rewrite !length_split_char. unfold newlines, str.
    f_equal. lia.
Qed.

(** X3 ([detailed_diff.py] lines 4 to 8 and 68).  The lines of
    [readlines], put together again, are the text that was read: no line
    is empty, a line feed is the last character of its line, and every
    line but the last one has it.  So the overall figure of
    [detailed_diff.py] is the similarity of the two whole texts, with the
    text of docling as the first sequence. *)
Theorem readlines_keeps_the_text (docling precision : str) :
  concat (readlines docling) = docling ∧
  Forall (λ line : str, ∃ body, (nl ∉ body) ∧
            (line = body ++ [nl] ∨ (line = body ∧ body ≠ [])))
         (readlines docling) ∧
  (∀ i line, readlines docling !! i = Some line →
     S i < length (readlines docling) → last line = Some nl) ∧
  total_sim (readlines docling) (readlines precision) = similarity docling precision.
Proof.
  split_and!.
  - apply concat_readlines.
  - apply readlines_lines.
  - apply readlines_inner.
  - unfold total_sim. by rewrite !concat_readlines.
Qed.

Lemma lstrip_blank_app (pre s : list ascii) : blank pre → lstrip (pre ++ s) = lstrip s.
Proof.
  induction 1 as [|c pre Hc _ IH]; [done|]. simpl. by rewrite Hc.
Qed.

Lemma rstrip_keeps_prefix (u v : list ascii) c :
  last u = Some c → isspace c = false → ∃ v', rstrip (u ++ v) = u ++ v'.
Proof.
  intros Hlast Hc. destruct (rstrip_spec (u ++ v)) as (post & Hs & Hpost & _).
  apply app_eq_inv in Hs as [(k & Hu & Hk)|(k & Hr & _)]; [|by eauto].
  destruct k as [|c' k _] using rev_ind.
  { exists []. rewrite app_nil_r in *. by rewrite <- Hu. }
  rewrite Hu, app_assoc, last_snoc in Hlast. simplify_eq.
  rewrite <- app_assoc in Hpost. apply Forall_app in Hpost as [_ Hpost].
  inversion Hpost; congruence.
Qed.

Lemma record_skip issues line :
  startswith line (lit "---") = true ∨ startswith line (lit "+++") = true
  ∨ startswith line (lit "@@") = true →
  record issues line = issues.
Proof.
  intros Hskip. unfold record.
  destruct (startswith line (lit "---")), (startswith line (lit "+++")),
    (startswith line (lit "@@")); simpl; try done.
  by destruct Hskip as [?|[?|?]].
Qed.

Lemma record_minus t issues :
  startswith t (lit "--") = false →
  record issues (lit "-" ++ t) = issues ++ [(missing, strip t)].
Proof.
  intros Ht. unfold record.
  assert (startswith (lit "-" ++ t) (lit "---") = false) as ->.
  { apply startswith_false. intros [rest Hrest]. apply startswith_false in Ht.
    apply Ht. exists rest. by simplify_eq/=. }
  assert (startswith (lit "-" ++ t) (lit "+++") = false) as ->.
  { apply startswith_false. by intros [rest Hrest]. }
  assert (startswith (lit "-" ++ t) (lit "@@") = false) as ->.
  { apply startswith_false. by intros [rest Hrest]. }
  assert (startswith (lit "-" ++ t) (lit "-") = true) as ->.
  { apply startswith_spec. by exists t. }
  done.
Qed.

Lemma record_plus t issues :
  startswith t (lit "++") = false →
  record issues (lit "+" ++ t) = issues ++ [(extra, strip t)].
Proof.
  intros Ht. unfold record.
  assert (startswith (lit "+" ++ t) (lit "---") = false) as ->.
  { apply startswith_false. by intros [rest Hrest]. }
  assert (startswith (lit "+" ++ t) (lit "+++") = false) as ->.
  { apply startswith_false. intros [rest Hrest]. apply startswith_false in Ht.
    apply Ht. exists rest. by simplify_eq/=. }
  assert (startswith (lit "+" ++ t) (lit "@@") = false) as ->.
  { apply startswith_false. by intros [rest Hrest]. }
  assert (startswith (lit "+" ++ t) (lit "-") = false) as ->.
  { apply startswith_false. by intros [rest Hrest]. }
  assert (startswith (lit "+" ++ t) (lit "+") = true) as ->.
  { apply startswith_spec. by exists t. }
  done.
Qed.

(** X4 ([detailed_diff.py] lines 22 to 27 and 34 to 36).  A line of the
    diff that starts with ["-"], but not with ["---"], is recorded as a
    missing line with its text stripped, and likewise an extra line.  The
    issue is counted as a blank line exactly when the text has nothing but
    whitespace, and as a missing header exactly when the text, after any
    whitespace that it starts with, goes on with ["##"]: an indented
    heading and a heading of a deeper level count too. *)
Theorem blank_and_heading_issues (t : str) :
  (startswith t (lit "--") = false →
     ∀ issues, record issues (lit "-" ++ t) = issues ++ [(missing, strip t)]) ∧
  (startswith t (lit "++") = false →
     ∀ issues, record issues (lit "+" ++ t) = issues ++ [(extra, strip t)]) ∧
  (is_missing_break (missing, strip t) = true ↔ blank t) ∧
  (is_extra_break (extra, strip t) = true ↔ blank t) ∧
  (is_missing_header (missing, strip t) = true
   ↔ ∃ pre rest, t = pre ++ lit "##" ++ rest ∧ blank pre).
Proof.
  split_and!.
  - intros Ht issues. by apply record_minus.
  - intros Ht issues. by apply record_plus.
  - unfold is_missing_break. cbn [fst snd]. change (lit "") with (@nil ascii).
    rewrite andb_true_iff, !bool_decide_eq_true, <- strip_nil_iff. tauto.
  - unfold is_extra_break. cbn [fst snd]. change (lit "") with (@nil ascii).
    rewrite andb_true_iff, !bool_decide_eq_true, <- strip_nil_iff. tauto.
  - unfold is_missing_header. cbn [fst snd].
    rewrite andb_true_iff, bool_decide_eq_true, startswith_spec.
    split; [intros [_ Hst]|intros Hst; split; [done|]].
    + destruct Hst as [rest Hrest].
      destruct (strip_spec t) as (pre & post & Ht & Hpre & _).
      exists pre, (rest ++ post). split; [|done].
      rewrite Ht at 1. rewrite Hrest. by rewrite <- !app_assoc.
    + destruct Hst as (pre & rest & -> & Hpre).
      rewrite strip_rstrip, lstrip_blank_app by done.
      change (lstrip (lit "##" ++ rest)) with (lit "##" ++ rest).
      by apply (rstrip_keeps_prefix (lit "##") rest "#"%char).
Qed.

End Texts.

(** ** The region between two markers *)

Section Markers.
Import detailed_diff.
Implicit Types (lines : list str) (marker line : str).

Lemma first_line_with lines marker :
  Forall (λ line, contains marker line = false) lines ∨
  ∃ pre line post, lines = pre ++ line :: post ∧
    Forall (λ line, contains marker line = false) pre ∧ contains marker line = true.
Proof.
  induction lines as [|line lines IH]; [by left|].
  destruct (contains marker line) eqn:Hline.
  { right. exists [], line, lines. by split_and!. }
  destruct IH as [Hnone|(pre & line' & post & -> & Hpre & Hline')].
  - left. by constructor.
  - right. exists (line :: pre), line', post. split_and!; [done|by constructor|done].
Qed.

(** A result of [find_section] that is not 0 is the index of the first line
    with the marker. *)
Lemma find_section_found lines marker :
  find_section lines marker ≠ 0 →
  ∃ pre line post, lines = pre ++ line :: post ∧
    length pre = find_section lines marker ∧
    Forall (λ line, contains marker line = false) pre ∧ contains marker line = true.
Proof.
  unfold find_section. intros Hfound.
  destruct (first_line_with lines marker) as [Hnone|(pre & line & post & -> & Hpre & Hline)].
  { by rewrite find_from_none in Hfound. }
  exists pre, line, post. split_and!; [done| |done..].
  by rewrite find_from_first.
Qed.

Lemma similarity_same {A} `{Countable A} (x : list A) :
  ∃ sim, similarity x x = Ok sim ∧ (sim == 100)%Q.
Proof.
  destruct (ratio_extremes x x) as (core & s1 & _ & Hr & Hone & _).
  unfold similarity. rewrite Hr. simpl. eexists. split; [done|].
  cbv zeta in Hone. apply proj2 in Hone. by rewrite (Hone eq_refl).
Qed.

Lemma similarity_disjoint {A} `{Countable A} (x y : list A) :
  disjoint x y → ¬ (x = [] ∧ y = []) →
  ∃ sim, similarity x y = Ok sim ∧ (sim == 0)%Q.
Proof.
  intros Hd Hne.
  destruct (ratio_extremes x y) as (core & s1 & _ & Hr & _ & _ & Hzero & _).
  unfold similarity. rewrite Hr. simpl.
  eexists. split; [done|]. by rewrite (Hzero Hd Hne).
Qed.

Lemma abstract_sections_skipped docling_lines precision_lines :
  find_section docling_lines (lit "## Abstract") = 0
  ∨ find_section precision_lines (lit "## Abstract") = 0
  ∨ find_section docling_lines (lit "## 1 Introduction") = 0
  ∨ find_section precision_lines (lit "## 1 Introduction") = 0 →
  abs_sim docling_lines precision_lines = Ok None.
Proof.
  intros Hzero. unfold abs_sim.
  assert (abstract_sections docling_lines precision_lines = None) as ->; [|done].
  unfold abstract_sections. cbv zeta.
  destruct Hzero as [-> | [-> | [-> | ->]]]; simpl; rewrite ?andb_false_r; done.
Qed.

Lemma abstract_sections_run docling_lines precision_lines :
  find_section docling_lines (lit "## Abstract") ≠ 0 →
  find_section precision_lines (lit "## Abstract") ≠ 0 →
  find_section docling_lines (lit "## 1 Introduction") ≠ 0 →
  find_section precision_lines (lit "## 1 Introduction") ≠ 0 →
  abstract_sections docling_lines precision_lines
  = Some (concat (slice docling_lines
                    (find_section docling_lines (lit "## Abstract"))
                    (find_section docling_lines (lit "## 1 Introduction"))),
          concat (slice precision_lines
                    (find_section precision_lines (lit "## Abstract"))
                    (find_section precision_lines (lit "## 1 Introduction")))).
Proof. intros. unfold abstract_sections. cbv zeta. by rewrite !bool_decide_eq_true_2. Qed.

(** The lines from a first marker to a second one: none when the second
    marker does not come after the first. *)
Lemma slice_between lines start_marker end_marker :
  find_section lines start_marker ≠ 0 → find_section lines end_marker ≠ 0 →
  let region := slice lines (find_section lines start_marker)
                      (find_section lines end_marker) in
  (find_section lines end_marker ≤ find_section lines start_marker → region = []) ∧
  (find_section lines start_marker < find_section lines end_marker →
     ∃ pre first body last post,
       lines = pre ++ first :: body ++ last :: post ∧ region = first :: body ∧
       contains start_marker first = true ∧ contains end_marker last = true ∧
       Forall (λ line, contains start_marker line = false) pre ∧
       Forall (λ line, contains end_marker line = false) (pre ++ first :: body)).
Proof.
  intros Hs He. cbv zeta. unfold slice. split.
  { intros Hle. apply drop_ge. rewrite length_take. lia. }
  intros Hlt.
  destruct (find_section_found lines start_marker Hs)
    as (pre & first & post & Hlines & Hlen & Hpre & Hfirst).
  destruct (find_section_found lines end_marker He)
    as (pre' & last & post' & Hlines' & Hlen' & Hpre' & Hlast).
  rewrite <- Hlen, <- Hlen' in *.
  assert (take (length pre') lines = pre') as Htake.
  { rewrite Hlines'. by rewrite take_app_length. }
  assert (∃ body, pre' = pre ++ first :: body) as [body ->].
  { exists (drop (S (length pre)) pre').
    rewrite <- (take_drop (length pre) pre') at 1. f_equal.
    - rewrite <- Htake, take_take, Nat.min_l by lia.
      rewrite Hlines. by rewrite take_app_length.
    - assert (pre' !! length pre = Some first) as Hfst.
      { assert (lines !! length pre = Some first) as Hl.
        { rewrite Hlines. by apply list_lookup_middle. }
        rewrite Hlines' in Hl. by rewrite lookup_app_l in Hl by lia. }
      by rewrite (drop_S _ _ _ Hfst). }
  exists pre, first, body, last, post'. split_and!; try done.
  - rewrite Hlines'. by rewrite <- app_assoc.
  - rewrite Htake. by rewrite drop_app_length.
Qed.

(** X5 ([detailed_diff.py] lines 49 to 61).  [find_section] answers 0 for a
    marker in the first line as it does for a marker that is nowhere, and
    the script reads 0 as "not there": when the heading of the abstract or
    of the introduction is in the first line of one of the two files, the
    abstracts are not compared. *)
Theorem marker_in_first_line_is_not_seen line (rest other : list str) marker :
  contains marker line = true →
  find_section (line :: rest) marker = 0 ∧
  (marker = lit "## Abstract" ∨ marker = lit "## 1 Introduction" →
   abs_sim (line :: rest) other = Ok None ∧ abs_sim other (line :: rest) = Ok None).
Proof.
  intros Hline.
  assert (find_section (line :: rest) marker = 0) as Hzero.
  { unfold find_section. simpl. by rewrite Hline. }
  split; [done|].
  intros [->| ->]; split; apply abstract_sections_skipped; auto.
Qed.

(** A file whose first line is the heading of the abstract. *)
Lemma marker_in_first_line_is_not_seen_witness :
  let line := lit "## Abstract" ++ [nl] in
  let rest := [lit "text" ++ [nl]; lit "## 1 Introduction" ++ [nl]] in
  contains (lit "## Abstract") line = true ∧
  find_section (line :: rest) (lit "## Abstract") = 0 ∧
  (lit "## Abstract" = lit "## Abstract" ∨ lit "## Abstract" = lit "## 1 Introduction" →
   abs_sim (line :: rest) (line :: rest) = Ok None ∧
   abs_sim (line :: rest) (line :: rest) = Ok None).
Proof.
  split; [reflexivity|].
  apply (marker_in_first_line_is_not_seen
           (lit "## Abstract" ++ [nl])
           [lit "text" ++ [nl]; lit "## 1 Introduction" ++ [nl]]
           [lit "## Abstract" ++ [nl]; lit "text" ++ [nl]; lit "## 1 Introduction" ++ [nl]]
           (lit "## Abstract")).
  reflexivity.
Defined.

(** X6 ([detailed_diff.py] lines 56 to 65).  When the four markers are
    found, the abstract of a file runs from the first line with
    ["## Abstract"], that line included, to the first line of the file
    with ["## 1 Introduction"], that line left out; the end marker is
    looked for from the top of the file, so when it comes first the
    abstract is empty.  Two empty abstracts are 100% similar, an empty one
    and one that is not are 0% similar. *)
Theorem abstract_between_markers (docling_lines precision_lines : list str) :
  let abs_start_d := find_section docling_lines (lit "## Abstract") in
  let abs_start_p := find_section precision_lines (lit "## Abstract") in
  let intro_start_d := find_section docling_lines (lit "## 1 Introduction") in
  let intro_start_p := find_section precision_lines (lit "## 1 Introduction") in
  abs_start_d ≠ 0 → abs_start_p ≠ 0 → intro_start_d ≠ 0 → intro_start_p ≠ 0 →
  ∃ abstract_d abstract_p sim,
    abstract_sections docling_lines precision_lines = Some (abstract_d, abstract_p) ∧
    abs_sim docling_lines precision_lines = Ok (Some sim) ∧
    (intro_start_d ≤ abs_start_d → abstract_d = []) ∧
    (abs_start_d < intro_start_d →
       ∃ pre first body last post,
         docling_lines = pre ++ first :: body ++ last :: post ∧
         abstract_d = concat (first :: body) ∧
         contains (lit "## Abstract") first = true ∧
         contains (lit "## 1 Introduction") last = true ∧
         Forall (λ line, contains (lit "## Abstract") line = false) pre ∧
         Forall (λ line, contains (lit "## 1 Introduction") line = false)
                (pre ++ first :: body)) ∧
    (intro_start_d ≤ abs_start_d → intro_start_p ≤ abs_start_p → (sim == 100)%Q) ∧
    (intro_start_d ≤ abs_start_d → abs_start_p < intro_start_p → (sim == 0)%Q).
Proof.
  intros abs_start_d abs_start_p intro_start_d intro_start_p Hd Hp Hd' Hp'.
  destruct (slice_between docling_lines _ _ Hd Hd') as [Hd0 Hd1].
  destruct (slice_between precision_lines _ _ Hp Hp') as [Hp0 Hp1].
  fold abs_start_d intro_start_d in Hd0, Hd1.
  fold abs_start_p intro_start_p in Hp0, Hp1.
  pose proof (abstract_sections_run _ _ Hd Hp Hd' Hp') as Hsome.
  fold abs_start_d intro_start_d abs_start_p intro_start_p in Hsome.
  set (abstract_d := concat (slice docling_lines abs_start_d intro_start_d)) in *.
  set (abstract_p := concat (slice precision_lines abs_start_p intro_start_p)) in *.
  assert (intro_start_d ≤ abs_start_d → abstract_d = []) as Hd2.
  { intros Hle. unfold abstract_d. by rewrite (Hd0 Hle). }
  assert (intro_start_p ≤ abs_start_p → abstract_p = []) as Hp2.
  { intros Hle. unfold abstract_p. by rewrite (Hp0 Hle). }
  assert (abs_start_p < intro_start_p → abstract_p ≠ []) as Hp3.
  { intros Hlt. destruct (Hp1 Hlt) as (pre & first & body & last & post & _ & H2 & H3 & _).
    unfold abstract_p. rewrite H2. simpl. intros [Hf _]%app_eq_nil.
    by rewrite Hf in H3. }
  assert (abs_start_d < intro_start_d →
       ∃ pre first body last post,
         docling_lines = pre ++ first :: body ++ last :: post ∧
         abstract_d = concat (first :: body) ∧
         contains (lit "## Abstract") first = true ∧
         contains (lit "## 1 Introduction") last = true ∧
         Forall (λ line, contains (lit "## Abstract") line = false) pre ∧
         Forall (λ line, contains (lit "## 1 Introduction") line = false)
                (pre ++ first :: body)) as Hd3.
  { intros Hlt. destruct (Hd1 Hlt) as (pre & first & body & last & post & H1 & H2 & H3).
    exists pre, first, body, last, post. split; [done|]. split; [|done].
    unfold abstract_d. by rewrite H2. }
  clearbody abstract_d abstract_p.
  destruct (similarity_new abstract_d abstract_p) as (core & _ & Hsim).
  exists abstract_d, abstract_p. eexists. split; [done|]. split.
  { unfold abs_sim. rewrite Hsome, Hsim. done. }
  split_and!; [done..| |].
  - intros Hle Hle'. rewrite (Hd2 Hle), (Hp2 Hle') in Hsim |- *.
    destruct (similarity_same (@nil ascii)) as (sim & Hs & Hs').
    rewrite Hs in Hsim. injection Hsim as ->. exact Hs'.
  - intros Hle Hlt. rewrite (Hd2 Hle) in Hsim |- *.
    destruct (similarity_disjoint (@nil ascii) abstract_p) as (sim & Hs & Hs').
    { by intros c ?%elem_of_nil. }
    { intros [_ ?]. by apply Hp3. }
    rewrite Hs in Hsim. injection Hsim as ->. exact Hs'.
Qed.

(** A file with a title, an abstract of one line and an introduction. *)
Lemma abstract_between_markers_witness :
  ∃ abstract_d abstract_p sim,
    abstract_sections
      [lit "Title"; lit "## Abstract"; lit "text"; lit "## 1 Introduction"]
      [lit "Title"; lit "## Abstract"; lit "text"; lit "## 1 Introduction"]
    = Some (abstract_d, abstract_p) ∧
    abs_sim
      [lit "Title"; lit "## Abstract"; lit "text"; lit "## 1 Introduction"]
      [lit "Title"; lit "## Abstract"; lit "text"; lit "## 1 Introduction"]
    = Ok (Some sim).
Proof.
  destruct (abstract_between_markers
              [lit "Title"; lit "## Abstract"; lit "text"; lit "## 1 Introduction"]
              [lit "Title"; lit "## Abstract"; lit "text"; lit "## 1 Introduction"])
    as (abstract_d & abstract_p & sim & Hsome & Hsim & _).
  - vm_compute. lia.
  - vm_compute. lia.
  - vm_compute. lia.
  - vm_compute. lia.
  - exists abstract_d, abstract_p, sim. split; assumption.
Defined.

End Markers.

(** ** The author lines of [test_authors.py] *)

Section Authors.
Import test_authors.
Implicit Types (lines docling_lines precision_lines : list str).

Lemma slice_from lines lo hi : slice lines lo hi = take (hi - lo) (drop lo lines).
Proof. unfold slice. apply skipn_firstn_comm. Qed.

Lemma drop_lookup_cons {T} (l : list T) i x : l !! i = Some x → drop i l = x :: drop (S i) l.
Proof. intros Hx. by rewrite (drop_S _ _ _ Hx). Qed.

(** The loop that prints the lines from index [lo] on. *)
Lemma author_lines_from lines : ∀ n lo printed,
  (n ≠ 0 → lo + n ≤ length lines) →
  for_ (seq lo n) (λ i printed,
      line ← getitem lines i;
      Ok (append printed (i + 1, line))) printed
  = Ok (printed ++ zip (seq (lo + 1) n) (take n (drop lo lines))).
Proof.
  induction n as [|n IH]; intros lo printed Hn; simpl.
  { by rewrite app_nil_r. }
  destruct (getitem_lt lines lo) as (x & Hx & ->); [lia|]. simpl.
  rewrite IH by lia. rewrite (drop_lookup_cons _ _ _ Hx). simpl.
  unfold append. by rewrite <- app_assoc.
Qed.

(** X7 ([test_authors.py] lines 13 to 19).  The two loops that print the
    author lines never index a list out of its range: they print the lines
    from the fifth one to line [bound] (22 for the text of docling, 30 for
    the other), or to the last line of a shorter file, each with its
    number counted from 1, and nothing for a file of four lines or
    fewer. *)
Theorem author_lines_shown (bound : nat) lines :
  author_lines bound lines
  = Ok (zip (seq 5 (length (slice lines 4 bound))) (slice lines 4 bound)) ∧
  length (slice lines 4 bound) = (bound `min` length lines) - 4.
Proof.
  assert (length (slice lines 4 bound) = (bound `min` length lines) - 4) as Hlen.
  { rewrite slice_from, length_take, length_drop. lia. }
  split; [|done]. unfold author_lines, range.
  rewrite author_lines_from by lia. rewrite Hlen, slice_from. simpl. do 2 f_equal.
  destruct (decide (bound ≤ length lines)) as [Hle|Hgt].
  - by rewrite Nat.min_l by done.
  - rewrite Nat.min_r by lia. rewrite !take_ge; [done|rewrite length_drop; lia..].
Qed.

(** The lines at the same index that are not equal, among the lines of
    the two lists. *)
Local Abbreviation differing l1 l2 :=
  (length (filter (λ xy : str * str, xy.1 ≠ xy.2) (zip l1 l2))).

(** The loop that counts the differences from index [lo] on. *)
Lemma count_author_diffs_from docling_lines precision_lines : ∀ n lo author_diffs,
  for_ (seq lo n) (λ i author_diffs,
      if bool_decide (i < length docling_lines) && bool_decide (i < length precision_lines)
      then
        d ← getitem docling_lines i;
        p ← getitem precision_lines i;
        Ok (if bool_decide (d ≠ p) then author_diffs + 1 else author_diffs)
      else Ok author_diffs) author_diffs
  = Ok (author_diffs + differing (take n (drop lo docling_lines))
                                 (take n (drop lo precision_lines))).
Proof.
  induction n as [|n IH]; intros lo author_diffs; simpl.
  { f_equal. lia. }
  destruct (decide (lo < length docling_lines ∧ lo < length precision_lines))
    as [[Hd Hp]|Hout].
  - rewrite !bool_decide_eq_true_2 by done. simpl.
    destruct (getitem_lt docling_lines lo Hd) as (d & Hd' & ->).
    destruct (getitem_lt precision_lines lo Hp) as (p & Hp' & ->). simpl.
    etrans; [apply IH|].
    rewrite (drop_lookup_cons _ _ _ Hd'), (drop_lookup_cons _ _ _ Hp'). simpl.
    rewrite filter_cons. cbn [fst snd]. f_equal.
    case_bool_decide; destruct (decide (d ≠ p)); try done; simpl; lia.
  - assert (differing (take (S n) (drop lo docling_lines))
                      (take (S n) (drop lo precision_lines)) = 0
            ∧ differing (take n (drop (S lo) docling_lines))
                        (take n (drop (S lo) precision_lines)) = 0) as [Hz Hz'].
    { destruct (decide (lo < length docling_lines)).
      - assert (length precision_lines ≤ lo) by lia.
        rewrite !(drop_ge precision_lines) by lia. rewrite !take_nil.
        by rewrite !zip_with_nil_r.
      - rewrite !(drop_ge docling_lines) by lia. by rewrite !take_nil. }
    rewrite Hz.
    assert (bool_decide (lo < length docling_lines)
            && bool_decide (lo < length precision_lines) = false) as ->.
    { apply andb_false_iff. rewrite !bool_decide_eq_false. lia. }
    etrans; [apply IH|]. by rewrite Hz'.
Qed.

Lemma differing_le (l1 l2 : list str) :
  differing l1 l2 ≤ length l1 `min` length l2.
Proof.
  etrans; [apply length_filter|]. by rewrite length_zip_with.
Qed.

Lemma differing_sym (l1 l2 : list str) : differing l1 l2 = differing l2 l1.
Proof.
  revert l2. induction l1 as [|x l1 IH]; intros [|y l2]; simpl; try done.
  rewrite !filter_cons. cbn [fst snd].
  destruct (decide (x ≠ y)), (decide (y ≠ x)); simpl; rewrite ?IH; try done; congruence.
Qed.

Lemma differing_zero (l1 l2 : list str) :
  differing l1 l2 = 0 ↔ ∀ i x y, l1 !! i = Some x → l2 !! i = Some y → x = y.
Proof.
  revert l2. induction l1 as [|x l1 IH]; intros [|y l2]; simpl; try by split.
  rewrite filter_cons. cbn [fst snd]. destruct (decide (x ≠ y)) as [Hne|Heq]; simpl.
  - split; [done|]. intros Hall. destruct Hne. by apply (Hall 0).
  - apply dec_stable in Heq as ->. rewrite IH. split.
    + intros Hall [|i] x' y'; simpl; [congruence|apply Hall].
    + intros Hall i x' y'. apply (Hall (S i)).
Qed.

(** X8 ([test_authors.py] lines 8, 11 and 21 to 28).  The count of the
    differences in the author region is the number of indices from 4 to 21
    at which both files have a line and the two lines differ once the
    whitespace at their ends is taken off.  A line that only one file has
    is not a difference; the count is at most 18, it is 0 when a file has
    four lines or fewer, and it is the same when the two files are
    exchanged. *)
Theorem author_diffs_counts_common_lines (docling precision : str) :
  ∃ n,
    author_diffs docling precision = Ok n ∧
    n = differing (slice (lines_of docling) 4 22) (slice (lines_of precision) 4 22) ∧
    n ≤ 18 ∧
    n ≤ (length (readlines docling) `min` length (readlines precision)) - 4 ∧
    author_diffs precision docling = Ok n ∧
    (n = 0 ↔ ∀ i x y, 4 ≤ i < 22 →
               readlines docling !! i = Some x → readlines precision !! i = Some y →
               rstrip x = rstrip y).
Proof.
  eexists. split; [|split; [reflexivity|]].
  { unfold author_diffs, count_author_diffs, range.
    rewrite count_author_diffs_from. by rewrite !slice_from. }
  assert (∀ text, length (slice (lines_of text) 4 22)
                  = (22 `min` length (readlines text)) - 4) as Hlen.
  { intros text. rewrite slice_from, length_take, length_drop.
    unfold lines_of. rewrite length_fmap. lia. }
  split_and!.
  - etrans; [apply differing_le|]. rewrite !Hlen. lia.
  - etrans; [apply differing_le|]. rewrite !Hlen. lia.
  - unfold author_diffs, count_author_diffs, range.
    rewrite count_author_diffs_from. rewrite !slice_from. simpl.
    f_equal. apply differing_sym.
  - rewrite differing_zero. unfold lines_of. rewrite !slice_from. split.
    + intros Hall i x y Hi Hx Hy.
      apply (Hall (i - 4) (rstrip x) (rstrip y)).
      * rewrite lookup_take_lt by lia. rewrite lookup_drop, list_lookup_fmap.
        replace (4 + (i - 4)) with i by lia. by rewrite Hx.
      * rewrite lookup_take_lt by lia. rewrite lookup_drop, list_lookup_fmap.
        replace (4 + (i - 4)) with i by lia. by rewrite Hy.
    + intros Hall i x y Hx Hy.
      apply lookup_take_Some in Hx as [Hx Hi], Hy as [Hy _].
      rewrite lookup_drop, list_lookup_fmap in Hx, Hy.
      destruct (readlines docling !! (4 + i)) as [x'|] eqn:Hx'; [|done].
      destruct (readlines precision !! (4 + i)) as [y'|] eqn:Hy'; [|done].
      simplify_eq/=. apply (Hall (4 + i)); [lia|done..].
Qed.

End Authors.

(** ** The differences that [compare_detailed.py] prints *)

Section Differences.
Import compare_detailed.




End Differences.

(** ** The lines of a unified diff and the issues read from them *)

Section DiffLines.
Import detailed_diff.
Implicit Types (a b : list str) (line lineterm fromfile tofile : str).

(** A line of a hunk after its header: a line of one of the two lists
    behind a blank, a minus or a plus. *)
Local Abbreviation hunk_line a b :=
  (λ line : str,
     (∃ x, x ∈ a ∧ line = lit " " ++ x) ∨ (∃ x, x ∈ a ∧ line = lit "-" ++ x)
     ∨ (∃ x, x ∈ b ∧ line = lit "+" ++ x)).

(** A line of a diff after its first header: the header of a hunk or a
    line of a hunk. *)
Local Abbreviation diff_line a b :=
  (λ line : str, startswith line (lit "@@") = true ∨ hunk_line a b line).

Lemma elem_of_slice {T} (l : list T) i j x : x ∈ slice l i j → x ∈ l.
Proof.
  unfold slice. intros Hx.
  eapply elem_of_sublist; [|apply sublist_take].
  eapply elem_of_sublist; [exact Hx|apply sublist_drop].
Qed.

Lemma dump_lines a b code : Forall (hunk_line a b) (dump a b code).
Proof.
  destruct code as [[[[tag i1] i2] j1] j2]. unfold dump.
  case_bool_decide.
  { apply Forall_fmap, Forall_forall. intros x Hx%elem_of_slice. left. eauto. }
  apply Forall_app. split; case_bool_decide; try constructor.
  - apply Forall_fmap, Forall_forall. intros x Hx%elem_of_slice. right. left. eauto.
  - apply Forall_fmap, Forall_forall. intros x Hx%elem_of_slice. right. right. eauto.
Qed.

Lemma hunk_lines a b lineterm group h :
  hunk a b lineterm group = Ok h →
  ∃ header body, h = header :: body ∧ startswith header (lit "@@") = true ∧
                 Forall (hunk_line a b) body.
Proof.
  unfold hunk. destruct (getitem group 0) as [first|]; [|done].
  destruct (getlast group) as [last|]; [|done]. simpl. intros [= <-].
  eexists _, _. split; [done|]. split.
  - apply startswith_spec. by eexists.
  - apply Forall_concat, Forall_fmap, Forall_forall. intros code _. apply dump_lines.
Qed.

(** The loop of [unified_diff] over the groups. *)
Lemma unified_diff_loop a b fromfile tofile lineterm groups : ∀ started lines,
  Forall (λ g : list Opcode, g ≠ []) groups →
  ∃ added,
    for_ groups (λ group '(started, lines),
        let lines :=
          if started : bool then lines
          else lines ++ [lit "--- " ++ fromfile ++ lineterm;
                         lit "+++ " ++ tofile ++ lineterm] in
        h ← hunk a b lineterm group;
        Ok (true, lines ++ h))
      (started, lines)
    = Ok (started || bool_decide (groups ≠ []), lines ++ added) ∧
    (groups = [] → added = []) ∧
    (groups ≠ [] → ∃ header rest,
       added = (if started then []
                else [lit "--- " ++ fromfile ++ lineterm;
                      lit "+++ " ++ tofile ++ lineterm]) ++ header :: rest ∧
       startswith header (lit "@@") = true ∧ Forall (diff_line a b) rest).
Proof.
  induction groups as [|group groups IH]; intros started lines Hg.
  { exists []. simpl. rewrite orb_false_r, app_nil_r. by split_and!. }
  apply Forall_cons in Hg as [Hgroup Hg]. cbn [for_].
  destruct (hunk_returns a b lineterm group Hgroup) as (h & Hh).
  destruct (hunk_lines a b lineterm group h Hh) as (header & body & -> & Hheader & Hbody).
  rewrite Hh. cbn [mbind result_bind].
  edestruct (IH true) as (added & -> & Hnil & Hcons); [done|].
  exists ((if started then []
           else [lit "--- " ++ fromfile ++ lineterm; lit "+++ " ++ tofile ++ lineterm])
          ++ header :: body ++ added).
  split_and!.
  - rewrite orb_true_l, bool_decide_eq_true_2, orb_true_r by done.
    f_equal. f_equal. destruct started; by rewrite <- !app_assoc.
  - done.
  - intros _. exists header, (body ++ added). split_and!; [done..|].
    apply Forall_app. split.
    + eapply Forall_impl; [exact Hbody|]. intros line Hl. by right.
    + destruct groups as [|g gs]; [by rewrite Hnil|].
      destruct Hcons as (header' & rest' & -> & Hh' & Hrest'); [done|].
      simpl. constructor; [by left|done].
Qed.

(** A diff is empty, when there is no group of opcodes, or starts with the
    two file lines and the header of a hunk. *)
Lemma unified_diff_groups a b fromfile tofile n lineterm :
  ∃ groups self' lines,
    get_grouped_opcodes (new None a b true) n = Ok (groups, self') ∧
    unified_diff a b fromfile tofile n lineterm = Ok lines ∧
    (groups = [] → lines = []) ∧
    (groups ≠ [] →
     ∃ header rest,
       lines = (lit "--- " ++ fromfile ++ lineterm)
               :: (lit "+++ " ++ tofile ++ lineterm) :: header :: rest ∧
       startswith header (lit "@@") = true ∧ Forall (diff_line a b) rest).
Proof.
  unfold unified_diff.
  destruct (get_grouped_opcodes_returns a b n) as (groups & self' & Hgroups & Hg).
  rewrite Hgroups.
  destruct (unified_diff_loop a b fromfile tofile lineterm groups false [] Hg)
    as (added & Hfor & Hnil & Hcons).
  simpl in Hfor |- *. rewrite Hfor. simpl. eexists _, _, _.
  split; [done|]. split; [done|]. split; [done|].
  intros Hne. destruct (Hcons Hne) as (header & rest & -> & Hh & Hrest).
  by exists header, rest.
Qed.

Lemma unified_diff_lines a b fromfile tofile n lineterm :
  ∃ lines, unified_diff a b fromfile tofile n lineterm = Ok lines ∧
    (lines = [] ∨
     ∃ header rest,
       lines = (lit "--- " ++ fromfile ++ lineterm)
               :: (lit "+++ " ++ tofile ++ lineterm) :: header :: rest ∧
       startswith header (lit "@@") = true ∧ Forall (diff_line a b) rest).
Proof.
  destruct (unified_diff_groups a b fromfile tofile n lineterm)
    as (groups & self' & lines & _ & Hlines & Hnil & Hcons).
  exists lines. split; [done|].
  destruct groups as [|g gs]; [left; by apply Hnil|right; by apply Hcons].
Qed.

(** An issue read from a diff of [a] and [b]: a line of [a] that does not
    start with two minus signs, or a line of [b] that does not start with
    two plus signs, stripped. *)
Local Abbreviation read_from a b :=
  (λ x : issue,
     match x.1 with
     | missing => ∃ l, l ∈ a ∧ x.2 = strip l ∧ startswith l (lit "--") = false
     | extra => ∃ l, l ∈ b ∧ x.2 = strip l ∧ startswith l (lit "++") = false
     end).

Lemma record_diff_line a b issues line :
  diff_line a b line → Forall (read_from a b) issues →
  Forall (read_from a b) (record issues line) ∧
  length (record issues line) ≤ S (length issues).
Proof.
  intros [Hh|[(x & Hx & ->)|[(x & Hx & ->)|(x & Hx & ->)]]] Hissues.
  - rewrite record_skip by auto. split; [done|lia].
  - assert (record issues (lit " " ++ x) = issues) as ->; [|split; [done|lia]].
    unfold record.
    assert (startswith (lit " " ++ x) (lit "---") = false) as ->.
    { apply startswith_false. by intros [rest Hrest]. }
    assert (startswith (lit " " ++ x) (lit "+++") = false) as ->.
    { apply startswith_false. by intros [rest Hrest]. }
    assert (startswith (lit " " ++ x) (lit "@@") = false) as ->.
    { apply startswith_false. by intros [rest Hrest]. }
    assert (startswith (lit " " ++ x) (lit "-") = false) as ->.
    { apply startswith_false. by intros [rest Hrest]. }
    assert (startswith (lit " " ++ x) (lit "+") = false) as ->.
    { apply startswith_false. by intros [rest Hrest]. }
    done.
  - destruct (startswith x (lit "--")) eqn:Hst.
    + rewrite record_skip; [split; [done|lia]|]. left.
      apply startswith_spec in Hst as [rest ->]. apply startswith_spec. by exists rest.
    + rewrite record_minus by done. split; [|rewrite length_app; simpl; lia].
      apply Forall_app. split; [done|]. apply Forall_singleton. simpl. eauto.
  - destruct (startswith x (lit "++")) eqn:Hst.
    + rewrite record_skip; [split; [done|lia]|]. right. left.
      apply startswith_spec in Hst as [rest ->]. apply startswith_spec. by exists rest.
    + rewrite record_plus by done. split; [|rewrite length_app; simpl; lia].
      apply Forall_app. split; [done|]. apply Forall_singleton. simpl. eauto.
Qed.

Lemma record_diff_lines a b lines : ∀ issues,
  Forall (diff_line a b) lines → Forall (read_from a b) issues →
  Forall (read_from a b) (foldl record issues lines) ∧
  length (foldl record issues lines) ≤ length issues + length lines.
Proof.
  induction lines as [|line lines IH]; intros issues Hlines Hissues; simpl.
  { split; [done|lia]. }
  apply Forall_cons in Hlines as [Hline Hlines].
  destruct (record_diff_line a b issues line Hline Hissues) as [H1 H2].
  destruct (IH _ Hlines H1) as [H3 H4]. split; [done|lia].
Qed.

(** X10 ([detailed_diff.py] lines 15 to 27).  The issues that the script
    reads from the diff come from the two files: the content of a missing
    issue is a line among the first 100 of the docling file, stripped, and
    that of an extra issue a line among the first 100 of the other file.
    A line of the docling file that starts with two minus signs, and a
    line of the other file that starts with two plus signs, is never an
    issue: behind the sign of the diff it reads as a file header.  No more
    than 197 issues are read, however the files differ: the first 200
    lines of a diff hold the two file headers and the header of a hunk. *)
Theorem issues_come_from_the_files (docling_lines precision_lines : list str) :
  ∃ found,
    issues docling_lines precision_lines = Ok found ∧
    length found ≤ 197 ∧
    Forall (λ x : issue,
              match x.1 with
              | missing => ∃ l, l ∈ slice docling_lines 0 100 ∧ x.2 = strip l ∧
                                startswith l (lit "--") = false
              | extra => ∃ l, l ∈ slice precision_lines 0 100 ∧ x.2 = strip l ∧
                              startswith l (lit "++") = false
              end) found.
Proof.
  unfold issues, diff.
  destruct (unified_diff_lines (slice docling_lines 0 100) (slice precision_lines 0 100)
              (lit "docling") (lit "precision") 3 (lit "")) as (lines & -> & Hlines).
  cbn [mbind result_bind]. eexists. split; [done|].
  unfold issues_of, slice. rewrite drop_0.
  destruct Hlines as [->|(header & rest & -> & Hheader & Hrest)].
  { split; [simpl; lia|constructor]. }
  change 200 with (3 + 197). cbn [take Nat.add foldl].
  rewrite !record_skip by (rewrite ?Hheader; auto).
  destruct (record_diff_lines _ _ (take 197 rest) [] (Forall_take _ _ _ Hrest)
              (Forall_nil_2 _)) as [Hfound Hlen].
  split; [|done]. rewrite length_take in Hlen. cbn [length] in Hlen.
  eapply Nat.le_trans; [exact Hlen|lia].
Qed.

End DiffLines.

(** ** An empty diff *)

Section EmptyDiff.
Context {A : Type} `{Countable A}.
Implicit Types (x y : list A) (codes group : list Opcode) (yielded : list (list Opcode)).









End EmptyDiff.


